(** * Planetary energy balance with stochastic forcing

    A shallow embedding of the notebook [EnergyBalance_Stochastic_v2.ipynb]:
    the zero-dimensional energy-balance model with ice-albedo feedback, its
    Euler-Maruyama ensemble loop and the per-run statistics.

    The values of Python floats are idealised as real numbers ([R]).  What
    decides whether a cell returns or raises, the shape of an array or
    which IEEE special value a division gives is not idealised: the
    rounding of the two quotients that fix the time grid, the float64
    results of [np.mean] and [np.std] and the rounding of a float64
    quotient are parameters of the model, left uninterpreted.  numpy arrays
    are lists, two-dimensional arrays are lists of rows; a cell that raises
    yields [Raise].  The calls to scipy's [odeint] and [fsolve] are not
    embedded: those routines are not part of the notebook. *)

From Stdlib Require Import Reals Lra Lia.
From stdpp Require Import base option list.

#[local] Open Scope R_scope.

(** ** Physical parameters

    The notebook keeps them in module-level variables; the functions below
    read them, so they are threaded as one record. *)

Record globals : Type := Globals {
  S0 : R;          (* W/m^2 *)
  T0 : R;          (* Kelvin (reference temperature scale) *)
  emissivity : R;  (* so that Teq = 288 K *)
  sigma : R;       (* W/(m^2 K^4) *)
  delta : R;       (* ratio of time scales tT/ta *)
  eta_T : R;       (* noise intensity, temperature *)
  eta_a : R        (* noise intensity, albedo *)
}.

(** The values the notebook assigns. *)
Definition notebook_globals : globals :=
  {| S0 := 1368; T0 := 288; emissivity := 61 / 100;
     sigma := 567 / 10000000000; delta := 1 / 100;
     eta_T := 5; eta_a := 1 / 100 |}.

(** ** Model definitions

    The values the functions of the model return.  A call raises when the
    solar constant is zero, and on a Python float when T**4 overflows:
    these calls are in [OutgoingRad_py], [OutgoingRad_np], [flux_diff_py]
    and [dT_dt_call] below, which return the values defined here in every
    other case. *)

(** [IncomingRad]: incoming radiation, scaled by the solar constant. *)
Definition IncomingRad (albedo : R) : R := (1 - albedo) / 4.

(** [OutgoingRad]: outgoing radiation (Stefan-Boltzmann), scaled by the
    solar constant. *)
Definition OutgoingRad (g : globals) (T : R) : R :=
  (emissivity g * sigma g / S0 g) * T ^ 4.

(** The constants local to [AlbedoEq]. *)
Definition a_ice : R := 7 / 10.
Definition a_water : R := 3 / 10.
Definition Tc : R := 265.
Definition wT : R := 20.

(** [AlbedoEq]: the temperature-dependent equilibrium albedo. *)
Definition AlbedoEq (T : R) : R :=
  let A := (a_ice + a_water) / 2 in
  let B := (a_ice - a_water) / 2 in
  A - B * tanh ((T - Tc) / (wT / 2)).

(** [dT_dt]: the energy balance for the temperature. *)
Definition dT_dt (g : globals) (y albedo : R) : R :=
  let T := y in
  let rin := T0 g * IncomingRad albedo in
  let rout := T0 g * OutgoingRad g T in
  rin - rout.

(** [da_dt]: the albedo dynamics. *)
Definition da_dt (g : globals) (T y : R) : R :=
  let a := y in
  let aeq := AlbedoEq T in
  delta g * (aeq - a).

(** [dState_dt]: the system in vector form, [State[0]] the temperature and
    [State[1]] the albedo. *)
Definition dState_dt (g : globals) (State : R * R) (t : R) : R * R :=
  (dT_dt g (fst State) (snd State), da_dt g (fst State) (snd State)).

(** [flux_diff]: the function whose zero crossings are the fixed points. *)
Definition flux_diff (g : globals) (T : R) : R :=
  IncomingRad (AlbedoEq T) - OutgoingRad g T.

(** ** Exceptions and results

    A cell either finishes or raises; only the exceptions the embedded
    cells can raise are listed. *)

Inductive exn : Type :=
  | ZeroDivisionError
  | IndexError
  | OverflowError.

Inductive result (A : Type) : Type :=
  | Return (a : A)
  | Raise (e : exn).
Arguments Return {A} a.
Arguments Raise {A} e.

#[global] Instance result_ret : MRet result := @Return.
#[global] Instance result_bind : MBind result := fun A B f m =>
  match m with
  | Return a => f a
  | Raise e => Raise e
  end.

Definition of_option {A : Type} (e : exn) (o : option A) : result A :=
  match o with
  | Some a => Return a
  | None => Raise e
  end.

(** [for x in xs: body], the loop body acting on the variables [St]. *)
Fixpoint for_each {St : Type} (xs : list nat) (body : nat → St → result St)
    (s : St) : result St :=
  match xs with
  | [] => Return s
  | x :: xs' => s' ← body x s; for_each xs' body s'
  end.

(** [range(n)] and [range(a, b)]. *)
Definition range (n : nat) : list nat := seq 0 n.
Definition range_from (a b : nat) : list nat := seq a (b - a).

(** ** float64 results

    A float64 that may fail to be an ordinary number: [Finite 0] is +0.0
    and [NegZero] is -0.0. *)
Inductive float64 : Type :=
  | Finite (x : R)
  | NegZero
  | PosInf
  | NegInf
  | NaN.

(** The floating-point conditions numpy reports as a [RuntimeWarning]
    before going on. *)
Inductive fp_error : Type :=
  | FloatDivideByZero
  | FloatInvalid
  | FloatOverflow.

#[local] Instance R_eq_dec : EqDecision R := Req_dec_T.
#[local] Instance Rlt_decision (x y : R) : Decision (x < y) := Rlt_dec x y.

(** ** The calls of the flux functions that can raise *)

(** [OutgoingRad(T)] on a numpy float64 or array, as every call site of
    the notebook has it: [emissivity * sigma / S0] divides Python floats
    and raises when [S0] is zero; [T**4] does not raise on a numpy
    argument. *)
Definition OutgoingRad_np (g : globals) (T : R) : result R :=
  if decide (S0 g = 0) then Raise ZeroDivisionError
  else Return (OutgoingRad g T).

(** [OutgoingRad(T)] on a Python float: moreover [T**4] raises when its
    result, [fl (T^4)] as the platform rounds it, is infinite. *)
Definition OutgoingRad_py (fl : R → float64) (g : globals) (T : R)
    : result R :=
  if decide (S0 g = 0) then Raise ZeroDivisionError
  else match fl (T ^ 4) with
       | PosInf | NegInf => Raise OverflowError
       | _ => Return (OutgoingRad g T)
       end.

(** [flux_diff(T)] on a Python float: the left operand
    [IncomingRad(AlbedoEq(T))] is evaluated first and does not raise. *)
Definition flux_diff_py (fl : R → float64) (g : globals) (T : R)
    : result R :=
  let rin := IncomingRad (AlbedoEq T) in
  rout ← OutgoingRad_py fl g T;
  Return (rin - rout).

(** [dT_dt(y, albedo)] as the loop calls it, on numpy float64 values. *)
Definition dT_dt_call (g : globals) (y albedo : R) : result R :=
  let T := y in
  let rin := T0 g * IncomingRad albedo in
  o ← OutgoingRad_np g T;
  let rout := T0 g * o in
  Return (rin - rout).

(** ** Arrays *)

Abbreviation array2 := (list (list R)).

Definition np_zeros (n : nat) : list R := replicate n 0.
Definition np_zeros2 (rows cols : nat) : array2 :=
  replicate rows (np_zeros cols).

(** [l[i]] and [l[i] = v], for a non-negative index. *)
Definition getitem {A : Type} (l : list A) (i : nat) : result A :=
  of_option IndexError (l !! i).
Definition setitem {A : Type} (l : list A) (i : nat) (v : A)
    : result (list A) :=
  if decide (i < length l)%nat then Return (<[i := v]> l) else Raise IndexError.

(** [m[k,:]], [m[k,i]] and [m[k,i] = v]. *)
Definition getrow (m : array2) (k : nat) : result (list R) :=
  of_option IndexError (m !! k).
Definition getitem2 (m : array2) (k i : nat) : result R :=
  row ← getrow m k; getitem row i.
Definition setitem2 (m : array2) (k i : nat) (v : R) : result array2 :=
  row ← getrow m k; row' ← setitem row i v; Return (<[k := row']> m).

(** [m[:,j] = v] on an array with [cols] columns. *)
Definition setcol (cols : nat) (m : array2) (j : nat) (v : R) : result array2 :=
  if decide (j < cols)%nat then Return ((λ row, <[j := v]> row) <$> m)
  else Raise IndexError.

(** The entry at row [k], column [i], when there is one. *)
Definition cell (m : array2) (k i : nat) : option R :=
  row ← m !! k; row !! i.

(** [np.arange(start, stop, step).size].  numpy divides [stop - start] by
    [step] as floats, the difference and the quotient each rounded by
    [rnd], and the division raises for a zero step; the size is the
    ceiling of the quotient, except that a quotient that underflows to
    zero for a nonzero difference gives one point, or none when it is
    negative. *)
Definition arange_len (rnd : R → R) (start stop step : R) : nat :=
  let q := rnd (rnd (stop - start) / step) in
  if decide (q = 0 ∧ stop - start ≠ 0) then
    if decide ((stop - start) / step < 0) then 0%nat else 1%nat
  else Z.to_nat (Zceil q).
Definition arange_size (rnd : R → R) (start stop step : R) : result nat :=
  if decide (step = 0) then Raise ZeroDivisionError
  else Return (arange_len rnd start stop step).

(** ** The random source

    [np.random.normal] draws from numpy's global generator.  The generator
    is modelled by the sequence [z] of standard normal variates it yields
    from the start of the session, and its state by the position [r] of
    the next one. *)

(** [np.random.normal(loc, scale)]: one variate is consumed. *)
Definition np_random_normal (z : nat → R) (loc scale : R) (r : nat) : R * nat :=
  (loc + scale * z r, S r).

(** [dW]: sample a random number at each call (for [0 <= delta_t]). *)
Definition dW (z : nat → R) (delta_t : R) (r : nat) : R * nat :=
  np_random_normal z 0 (sqrt delta_t) r.

(** ** The ensemble of noisy simulations *)

Record config : Type := Config {
  num_sims : nat;   (* number of runs *)
  time_init : R;
  time_end : R;
  NumStep : nat;    (* number of time steps *)
  T_init : R;
  a_init : R
}.

(** The variables the Euler-Maruyama cell updates. *)
Record workspace : Type := Workspace {
  Tstoc : array2;
  Astoc : array2;
  rng : nat
}.

(** [dt = float(time_end - time_init) / NumStep]: a float64 division, its
    operands and its quotient rounded by [rnd]. *)
Definition time_step (rnd : R → R) (c : config) : result R :=
  if decide (NumStep c = 0%nat) then Raise ZeroDivisionError
  else Return (rnd (rnd (time_end c - time_init c) / rnd (INR (NumStep c)))).

(** The cell that defines the time span: it yields [dt], [ts.size] and the
    initialised arrays. *)
Definition setup (rnd : R → R) (c : config) (r : nat)
    : result (R * nat * workspace) :=
  dt ← time_step rnd c;
  ts_size ← arange_size rnd (time_init c) (time_end c) dt;
  let T := np_zeros2 (num_sims c) (NumStep c) in
  let A := np_zeros2 (num_sims c) (NumStep c) in
  T ← setcol (NumStep c) T 0 (T_init c);
  A ← setcol (NumStep c) A 0 (a_init c);
  Return (dt, ts_size, {| Tstoc := T; Astoc := A; rng := r |}).

(** The body of the inner loop, at run [k] and step [i] (the assignment
    [t = (i-1) * dt] is never read). *)
Definition em_step (g : globals) (z : nat → R) (dt : R) (k i : nat)
    (w : workspace) : result workspace :=
  T ← getitem2 (Tstoc w) k (i - 1);
  a ← getitem2 (Astoc w) k (i - 1);
  dTdt ← dT_dt_call g T a;
  let '(xi, r1) := dW z dt (rng w) in
  T' ← setitem2 (Tstoc w) k i (T + dTdt * dt + eta_T g * xi);
  let '(xi', r2) := dW z dt r1 in
  A' ← setitem2 (Astoc w) k i (a + da_dt g T a * dt + eta_a g * xi');
  Return {| Tstoc := T'; Astoc := A'; rng := r2 |}.

(** The Euler-Maruyama cell. *)
Definition euler_maruyama (g : globals) (z : nat → R) (c : config) (dt : R)
    (ts_size : nat) (w : workspace) : result workspace :=
  for_each (range (num_sims c))
    (λ k, for_each (range_from 1 ts_size) (λ i, em_step g z dt k i)) w.

(** One invocation of the simulator: both cells, from generator state [r]. *)
Definition simulate (rnd : R → R) (g : globals) (z : nat → R) (c : config)
    (r : nat) : result workspace :=
  '(dt, ts_size, w) ← setup rnd c r;
  euler_maruyama g z c dt ts_size w.

(** The ensemble an invocation leaves, or the exception it raises. *)
Definition ensemble (o : result workspace) : result (array2 * array2) :=
  w ← o; Return (Tstoc w, Astoc w).

(** ** Statistics *)

(** The values [np.sum], [np.mean] and [np.std] are documented to compute
    on a one-dimensional array, the last with numpy's default [ddof=0]:
    [std = sqrt(mean(abs(x - x.mean())**2))]. *)
Definition np_sum (l : list R) : R := foldr Rplus 0 l.
Definition np_mean (l : list R) : R := np_sum l / INR (length l).
Definition np_std (l : list R) : R :=
  sqrt (np_mean ((λ x, Rabs (x - np_mean l) ^ 2) <$> l)).

(** The float64 arithmetic behind the statistics cells: what [np.mean] and
    [np.std] return on a row, and how a real quotient is rounded to
    float64 (to an infinity on overflow, to a zero on underflow). *)
Record numpy_floats : Type := NumpyFloats {
  mean64 : list R → float64;
  std64 : list R → float64;
  round64 : R → float64
}.

(** numpy as documented, its results taken as exact. *)
Definition documented_numpy : numpy_floats :=
  {| mean64 := λ l, Finite (np_mean l);
     std64 := λ l, Finite (np_std l);
     round64 := Finite |}.

(** The sign bit of a float64 that is not NaN. *)
Definition negative (x : float64) : bool :=
  match x with
  | Finite v => bool_decide (v < 0)
  | NegZero | NegInf => true
  | PosInf | NaN => false
  end.
Definition is_zero (x : float64) : bool :=
  match x with
  | Finite v => bool_decide (v = 0)
  | NegZero => true
  | _ => false
  end.
Definition infinity (neg : bool) : float64 := if neg then NegInf else PosInf.
Definition zero (neg : bool) : float64 := if neg then NegZero else Finite 0.

(** One float64 division [x / y], with the condition it flags. *)
Definition np_divide1 (fl : R → float64) (x y : float64)
    : float64 * option fp_error :=
  let s := xorb (negative x) (negative y) in
  match x, y with
  | NaN, _ | _, NaN => (NaN, None)
  | (PosInf | NegInf), (PosInf | NegInf) => (NaN, Some FloatInvalid)
  | (PosInf | NegInf), _ => (infinity s, None)
  | _, (PosInf | NegInf) => (zero s, None)
  | _, _ =>
      if is_zero y then
        if is_zero x then (NaN, Some FloatInvalid)
        else (infinity s, Some FloatDivideByZero)
      else if is_zero x then (zero s, None)
      else match x, y with
           | Finite a, Finite b =>
               let q := fl (a / b) in
               (q, match q with
                   | PosInf | NegInf => Some FloatOverflow
                   | _ => None
                   end)
           | _, _ => (NaN, None)
           end
  end.

(** [xs / ys] on arrays of one length: the quotients and the conditions
    flagged. *)
Definition np_divide (fl : R → float64) (xs ys : list float64)
    : list float64 * list fp_error :=
  let qs := zip_with (np_divide1 fl) xs ys in
  (fst <$> qs, omap snd qs).

(** [np.zeros(n)] as float64 values. *)
Definition np_zeros64 (n : nat) : list float64 := replicate n (Finite 0).

(** [for k in range(num_sims): out[k] = f(Tstoc[k,:])]. *)
Definition per_run (f : list R → float64) (num_sims : nat) (T : array2)
    (out : list float64) : result (list float64) :=
  for_each (range num_sims)
    (λ k out, row ← getrow T k; setitem out k (f row)) out.

Record summary : Type := Summary {
  std_list : list float64;
  mean_list : list float64;
  CoV : list float64;          (* std_list/mean_list *)
  warnings : list fp_error
}.

(** The statistics cells. *)
Definition summarize (lib : numpy_floats) (num_sims : nat) (T : array2)
    : result summary :=
  sd ← per_run (std64 lib) num_sims T (np_zeros64 num_sims);
  mn ← per_run (mean64 lib) num_sims T (np_zeros64 num_sims);
  let '(q, ws) := np_divide (round64 lib) sd mn in
  Return {| std_list := sd; mean_list := mn; CoV := q; warnings := ws |}.

(** ** The final temperatures and the flux curves *)

(** [Tends = Tstoc[:,-1]], on an array with [cols] columns. *)
Definition Tends (cols : nat) (T : array2) : result (list R) :=
  if decide (0 < cols)%nat then mapM (λ row, getitem row (cols - 1)) T
  else Raise IndexError.

(** [np.linspace(start, stop, num)]: [num] evenly spaced samples, the last
    one set to [stop]. *)
Definition np_linspace (start stop : R) (num : nat) : list R :=
  let div := (num - 1)%nat in
  let delta := stop - start in
  let y := (λ i, if decide (0 < div)%nat
                 then INR i * (delta / INR div) + start
                 else INR i * delta + start) <$> seq 0 num in
  if decide (1 < num)%nat then <[(num - 1)%nat := stop]> y else y.

(** The arrays the cell before the flux plots computes. *)
Record curves : Type := Curves {
  albedo_func : list R;
  rad_incoming : list R;
  rad_outgoing : list R;
  rad_diff : list R
}.

(** The functions applied to the array [temperature_range], element by
    element. *)
Definition flux_curves (g : globals) (temperature_range : list R) : curves :=
  let albedo_func := AlbedoEq <$> temperature_range in
  let rad_incoming := IncomingRad <$> albedo_func in
  let rad_outgoing := OutgoingRad g <$> temperature_range in
  let rad_diff := zip_with Rminus rad_incoming rad_outgoing in
  {| albedo_func := albedo_func; rad_incoming := rad_incoming;
     rad_outgoing := rad_outgoing; rad_diff := rad_diff |}.

(** ** Reference recurrences *)

(** The step size and the number of grid points the first cell computes. *)
Definition dt_of (rnd : R → R) (c : config) : R :=
  rnd (rnd (time_end c - time_init c) / rnd (INR (NumStep c))).
Definition ts_size_of (rnd : R → R) (c : config) : nat :=
  arange_len rnd (time_init c) (time_end c) (dt_of rnd c).

(** The position in the generator's sequence of the draw for run [k], step
    [i] and state variable [v] (0 the temperature, 1 the albedo), when the
    simulator is entered at position [r] and the grid has [n] points. *)
Definition draw_pos (n r k i v : nat) : nat :=
  (r + 2 * (k * (n - 1) + (i - 1)) + v)%nat.

(** Run [k] as a recurrence on the step index, for step size [dt] and a
    grid of [n] points. *)
Fixpoint path (g : globals) (z : nat → R) (c : config) (dt : R) (n r k i : nat)
    : R * R :=
  match i with
  | O => (T_init c, a_init c)
  | S j =>
      let '(T, a) := path g z c dt n r k j in
      (T + dT_dt g T a * dt
         + eta_T g * (0 + sqrt dt * z (draw_pos n r k (S j) 0)),
       a + da_dt g T a * dt
         + eta_a g * (0 + sqrt dt * z (draw_pos n r k (S j) 1)))
  end.

(** Forward-Euler integration of the coupled system, as the specification
    words it: each step adds the derivative times the step size. *)
Fixpoint forward_euler (g : globals) (dt : R) (s0 : R * R) (i : nat) : R * R :=
  match i with
  | O => s0
  | S j =>
      let s := forward_euler g dt s0 j in
      (fst s + dT_dt g (fst s) (snd s) * dt,
       snd s + da_dt g (fst s) (snd s) * dt)
  end.

(** The arithmetic mean and the population standard deviation of a
    series, as the specification words them and without reference to the
    model of numpy: the samples are added up one after the other, the mean
    is their total over their number N, and the standard deviation is the
    square root of the total of the squared deviations from the mean
    over N (not N - 1). *)
Fixpoint total_from (acc : R) (l : list R) : R :=
  match l with
  | [] => acc
  | x :: l' => total_from (acc + x) l'
  end.
Definition arithmetic_mean (l : list R) : R :=
  total_from 0 l / INR (length l).
Definition population_std (l : list R) : R :=
  sqrt (total_from 0
          (List.map (λ x, (x - arithmetic_mean l) * (x - arithmetic_mean l)) l)
        / INR (length l)).

(** ** Definitions for the proofs *)

(** An array of [rows] rows of [cols] entries each. *)
Definition shape (rows cols : nat) (m : array2) : Prop :=
  length m = rows ∧ ∀ k row, m !! k = Some row → length row = cols.

(** The entries written once runs [0..k-1] are complete and run [k] has
    reached step [j], on a grid of [n] points; column 0 is set for every
    run from the start. *)
Definition filled (n k j k' i : nat) : Prop :=
  ((k' < k ∧ i < n) ∨ (k' = k ∧ i ≤ j) ∨ i = 0)%nat.

#[local] Instance filled_dec (n k j k' i : nat) : Decision (filled n k j k' i).
Proof. unfold filled. apply _. Defined.

(** The value the invariant expects at row [k'], column [i] ([sel] picks
    the temperature or the albedo). *)
Definition expected (g : globals) (z : nat → R) (c : config) (dt : R)
    (n r : nat) (sel : R * R → R) (k j k' i : nat) : R :=
  if decide (filled n k j k' i) then sel (path g z c dt n r k' i) else 0.

(** The invariant of the two loops, at run [k] and step [j]. *)
Record Inv (g : globals) (z : nat → R) (c : config) (dt : R) (n r k j : nat)
    (w : workspace) : Prop := {
  inv_T_shape : shape (num_sims c) (NumStep c) (Tstoc w);
  inv_A_shape : shape (num_sims c) (NumStep c) (Astoc w);
  inv_rng : rng w = (r + 2 * (k * (n - 1) + j))%nat;
  inv_T : ∀ k' i, (k' < num_sims c)%nat → (i < NumStep c)%nat →
            cell (Tstoc w) k' i = Some (expected g z c dt n r fst k j k' i);
  inv_A : ∀ k' i, (k' < num_sims c)%nat → (i < NumStep c)%nat →
            cell (Astoc w) k' i = Some (expected g z c dt n r snd k j k' i)
}.

(** Two outcomes of a cell: both return, with results related by [P], or
    both raise the same exception. *)
Definition same_outcome {A : Type} (P : A → A → Prop) (o o' : result A)
    : Prop :=
  match o, o' with
  | Return a, Return a' => P a a'
  | Raise e, Raise e' => e = e'
  | _, _ => False
  end.

(** Two workspaces that hold the same arrays, their generators equally far
    from the positions [r] and [r'] at entry. *)
Definition same_arrays (r r' : nat) (w w' : workspace) : Prop :=
  Tstoc w = Tstoc w' ∧ Astoc w = Astoc w'
  ∧ ∃ d, rng w = (r + d)%nat ∧ rng w' = (r' + d)%nat.

(** ** Instances used in the examples *)

(** A rounding that changes nothing: float64 arithmetic on values it
    represents exactly. *)
Definition exact (x : R) : R := x.

(** A rounding to multiples of 1/64, towards minus infinity: a coarse
    binary arithmetic in which the quotients of a grid are not exact. *)
Definition coarse (x : R) : R := IZR (Zfloor (x * 64)) / 64.

(** A rounding to float64 that is exact below the overflow threshold of
    the format, half way between its largest number and 2^1024. *)
Definition overflowing (x : R) : float64 :=
  if decide (x < 2 ^ 1024 - 2 ^ 970) then Finite x else PosInf.

(** The notebook's parameters with the solar constant set to zero. *)
Definition dark_globals : globals :=
  {| S0 := 0; T0 := 288; emissivity := 61 / 100;
     sigma := 567 / 10000000000; delta := 1 / 100;
     eta_T := 5; eta_a := 1 / 100 |}.


(** A small instance: one run of two time points with unit step, the
    generator yielding 0, 1, 2, ... *)
Definition small_config : config :=
  {| num_sims := 1; time_init := 0; time_end := 2; NumStep := 2;
     T_init := 280; a_init := 35 / 100 |}.
Definition counting_variates (j : nat) : R := INR j.

(** The same variates, met two positions later. *)
Definition shifted_variates (j : nat) : R := INR (j - 2).

(** The notebook's parameters with both noise intensities set to zero. *)
Definition quiet_globals : globals :=
  {| S0 := 1368; T0 := 288; emissivity := 61 / 100;
     sigma := 567 / 10000000000; delta := 1 / 100;
     eta_T := 0; eta_a := 0 |}.

(** A grid with no step, a grid of a single time point, and a grid of
    three steps over a unit span. *)
Definition no_step_config : config :=
  {| num_sims := 1; time_init := 0; time_end := 2; NumStep := 0;
     T_init := 280; a_init := 35 / 100 |}.
Definition single_point_config : config :=
  {| num_sims := 1; time_init := 0; time_end := 2; NumStep := 1;
     T_init := 280; a_init := 35 / 100 |}.
Definition thirds_config : config :=
  {| num_sims := 1; time_init := 0; time_end := 1; NumStep := 3;
     T_init := 280; a_init := 35 / 100 |}.

(** Three runs of two time points. *)
Definition three_runs_config : config :=
  {| num_sims := 3; time_init := 0; time_end := 2; NumStep := 2;
     T_init := 280; a_init := 35 / 100 |}.

(** Parameters without noise for which the transition temperature [Tc] is
    an equilibrium, and a run that starts there. *)
Definition balanced_globals : globals :=
  {| S0 := 265 ^ 4; T0 := 288; emissivity := 1 / 8; sigma := 1;
     delta := 1 / 100; eta_T := 0; eta_a := 0 |}.
Definition balanced_config : config :=
  {| num_sims := 1; time_init := 0; time_end := 2; NumStep := 2;
     T_init := 265; a_init := 1 / 2 |}.

(** * Theorems *)
(** ** The hyperbolic tangent *)

Lemma tanh_exp (x : R) : tanh x = (exp x - exp (- x)) / (exp x + exp (- x)).
Proof.
  unfold tanh, sinh, cosh.
  pose proof (exp_pos x). pose proof (exp_pos (- x)).
  field. lra.
Qed.

Lemma tanh_bounds (x : R) : -1 < tanh x < 1.
Proof.
  rewrite tanh_exp.
  pose proof (exp_pos x) as Ha. pose proof (exp_pos (- x)) as Hb.
  split; apply Rmult_lt_reg_r with (exp x + exp (- x)); try lra;
    unfold Rdiv; rewrite Rmult_assoc, Rinv_l by lra; lra.
Qed.

Lemma exp_le_mono (x y : R) : x <= y → exp x <= exp y.
Proof.
  intros [Hlt | ->]; [left; by apply exp_increasing | lra].
Qed.

Lemma tanh_le_mono (x y : R) : x <= y → tanh x <= tanh y.
Proof.
  intros Hxy. rewrite !tanh_exp.
  pose proof (exp_pos x) as Ha1. pose proof (exp_pos (- x)) as Hb1.
  pose proof (exp_pos y) as Ha2. pose proof (exp_pos (- y)) as Hb2.
  pose proof (exp_le_mono x y Hxy) as Ha.
  assert (exp (- y) <= exp (- x)) as Hb by (apply exp_le_mono; lra).
  apply Rmult_le_reg_r with ((exp x + exp (- x)) * (exp y + exp (- y))).
  { apply Rmult_lt_0_compat; lra. }
  replace ((exp x - exp (- x)) / (exp x + exp (- x)) *
           ((exp x + exp (- x)) * (exp y + exp (- y))))
    with ((exp x - exp (- x)) * (exp y + exp (- y))) by (field; lra).
  replace ((exp y - exp (- y)) / (exp y + exp (- y)) *
           ((exp x + exp (- x)) * (exp y + exp (- y))))
    with ((exp y - exp (- y)) * (exp x + exp (- x))) by (field; lra).
  nra.
Qed.

(** ** Flux model: theorems *)

Lemma overflowing_pow_300 : overflowing ((2 ^ 300) ^ 4) = PosInf.
Proof.
  unfold overflowing. apply decide_False.
  rewrite <- pow_mult.
  assert (2 ^ 1024 <= 2 ^ (300 * 4)) by (apply Rle_pow; [lra | lia]).
  pose proof (pow_lt 2 970 ltac:(lra)). lra.
Qed.

Lemma overflowing_pow_288 : overflowing (288 ^ 4) = Finite (288 ^ 4).
Proof.
  unfold overflowing. apply decide_True.
  assert (288 ^ 4 <= 2 ^ 40) by (simpl; lra).
  assert (2 ^ 40 <= 2 ^ 970) by (apply Rle_pow; [lra | lia]).
  assert (2 * 2 ^ 970 <= 2 ^ 1024).
  { change (2 * 2 ^ 970) with (2 ^ 971). apply Rle_pow; [lra | lia]. }
  pose proof (pow_lt 2 970 ltac:(lra)). lra.
Qed.

(** C7, as the code has it: the incoming flux is (1 - albedo)/4 for every
    albedo and raises nothing.  The outgoing flux and the net flux raise
    ZeroDivisionError when the solar constant S0 is zero, and OverflowError
    when T**4 overflows on a Python float T; in every other case the
    outgoing flux returns (emissivity*sigma/S0) * T^4 and the net flux
    returns the incoming flux at the equilibrium albedo minus the outgoing
    flux. *)
Theorem flux_diff_py_spec (fl : R → float64) (g : globals) (T albedo : R) :
  IncomingRad albedo = (1 - albedo) / 4
  ∧ (S0 g = 0 →
       OutgoingRad_py fl g T = Raise ZeroDivisionError
       ∧ flux_diff_py fl g T = Raise ZeroDivisionError)
  ∧ (S0 g ≠ 0 → fl (T ^ 4) = PosInf ∨ fl (T ^ 4) = NegInf →
       OutgoingRad_py fl g T = Raise OverflowError
       ∧ flux_diff_py fl g T = Raise OverflowError)
  ∧ (S0 g ≠ 0 → fl (T ^ 4) ≠ PosInf → fl (T ^ 4) ≠ NegInf →
       OutgoingRad_py fl g T
       = Return ((emissivity g * sigma g / S0 g) * (T * T * T * T))
       ∧ flux_diff_py fl g T
         = Return (IncomingRad (AlbedoEq T) - OutgoingRad g T)
       ∧ flux_diff_py fl g T = Return (flux_diff g T)
       ∧ flux_diff g T
         = (1 - AlbedoEq T) / 4
           - (emissivity g * sigma g / S0 g) * (T * T * T * T)).
Proof.
  split; [reflexivity|]. unfold flux_diff_py, OutgoingRad_py.
  split; [|split].
  - intros HS. by rewrite decide_True.
  - intros HS Hinf. rewrite decide_False by done.
    by destruct Hinf as [-> | ->].
  - intros HS Hp Hn. rewrite decide_False by done.
    assert (OutgoingRad g T
            = emissivity g * sigma g / S0 g * (T * T * T * T)) as HO
      by (unfold OutgoingRad; simpl; ring).
    unfold flux_diff. rewrite <- HO.
    destruct (fl (T ^ 4)); done.
Qed.

Lemma flux_diff_py_spec_witness :
  S0 notebook_globals ≠ 0
  ∧ overflowing (288 ^ 4) ≠ PosInf ∧ overflowing (288 ^ 4) ≠ NegInf
  ∧ flux_diff_py overflowing notebook_globals 288
    = Return (flux_diff notebook_globals 288)
  ∧ flux_diff_py overflowing dark_globals 288 = Raise ZeroDivisionError.
Proof.
  assert (S0 notebook_globals ≠ 0) as HS by (simpl; lra).
  assert (overflowing (288 ^ 4) ≠ PosInf) as Hp
    by (rewrite overflowing_pow_288; discriminate).
  assert (overflowing (288 ^ 4) ≠ NegInf) as Hn
    by (rewrite overflowing_pow_288; discriminate).
  do 3 (split; [assumption|]). split.
  - destruct (flux_diff_py_spec overflowing notebook_globals 288 0)
      as (_ & _ & _ & Hret).
    destruct (Hret HS Hp Hn) as (_ & _ & Hflux & _). exact Hflux.
  - destruct (flux_diff_py_spec overflowing dark_globals 288 0)
      as (_ & Hzero & _).
    destruct (Hzero eq_refl) as [_ Hflux]. exact Hflux.
Defined.

(** C7, as stated, fails: with the solar constant set to zero the net flux
    at T = 288 raises ZeroDivisionError, and with the notebook's parameters
    the outgoing flux and the net flux at the Python float T = 2.0**300
    raise OverflowError. *)
Lemma flux_diff_raises :
  flux_diff_py overflowing dark_globals 288 = Raise ZeroDivisionError
  ∧ OutgoingRad_py overflowing notebook_globals (2 ^ 300)
    = Raise OverflowError
  ∧ flux_diff_py overflowing notebook_globals (2 ^ 300)
    = Raise OverflowError.
Proof.
  unfold flux_diff_py, OutgoingRad_py. split; [|split].
  - by rewrite decide_True by reflexivity.
  - rewrite decide_False by (simpl; lra).
    by rewrite overflowing_pow_300.
  - rewrite decide_False by (simpl; lra).
    by rewrite overflowing_pow_300.
Qed.

(** C8: the temperature derivative is T0 times the incoming flux minus T0
    times the outgoing flux. *)
Theorem dT_dt_spec (g : globals) (T albedo : R) :
  dT_dt g T albedo = T0 g * IncomingRad albedo - T0 g * OutgoingRad g T
  /\ dT_dt g T albedo = T0 g * (IncomingRad albedo - OutgoingRad g T).
Proof.
  unfold dT_dt. split; [reflexivity | ring].
Qed.

(** C4: the equilibrium albedo is A - B*tanh((T - Tc)/(wT/2)) with
    A = (a_ice + a_water)/2 and B = (a_ice - a_water)/2; it does not
    increase with T, and every value lies in [a_water, a_ice] = [0.3, 0.7]. *)
Theorem AlbedoEq_monotone_bounded (T1 T2 : R) :
  T1 <= T2 →
  AlbedoEq T1
    = (a_ice + a_water) / 2
      - (a_ice - a_water) / 2 * tanh ((T1 - Tc) / (wT / 2))
  ∧ AlbedoEq T2 <= AlbedoEq T1
  ∧ a_water <= AlbedoEq T1 <= a_ice
  ∧ a_water = 3 / 10 ∧ a_ice = 7 / 10.
Proof.
  intros HT. split; [reflexivity|].
  unfold AlbedoEq, a_ice, a_water, Tc, wT.
  pose proof (tanh_bounds ((T1 - 265) / (20 / 2))) as Hb.
  assert (tanh ((T1 - 265) / (20 / 2)) <= tanh ((T2 - 265) / (20 / 2))) as Hm.
  { apply tanh_le_mono. lra. }
  repeat split; lra.
Qed.

Lemma AlbedoEq_monotone_bounded_witness :
  240 <= 288 ∧ AlbedoEq 288 <= AlbedoEq 240 ∧ a_water <= AlbedoEq 240 <= a_ice.
Proof.
  split; [lra|].
  destruct (AlbedoEq_monotone_bounded 240 288) as (_ & Hm & Hb & _); [lra|].
  split; assumption.
Defined.

(** ** Arrays: lemmas *)

Lemma getitem2_cell (m : array2) (k i : nat) (x : R) :
  cell m k i = Some x → getitem2 m k i = Return x.
Proof.
  unfold cell, getitem2, getrow, getitem.
  destruct (m !! k) as [row|]; simpl; [|done].
  by intros ->.
Qed.

Lemma setitem2_spec (rows cols : nat) (m : array2) (k i : nat) (v : R) :
  shape rows cols m → (k < rows)%nat → (i < cols)%nat →
  ∃ m', setitem2 m k i v = Return m' ∧ shape rows cols m' ∧
        ∀ k' i', cell m' k' i'
                 = if decide (k' = k ∧ i' = i) then Some v else cell m k' i'.
Proof.
  intros [Hlen Hrows] Hk Hi.
  destruct (lookup_lt_is_Some_2 m k) as [row Hrow]; [lia|].
  pose proof (Hrows _ _ Hrow) as Hrl.
  exists (<[k := <[i := v]> row]> m). split; [|split].
  - unfold setitem2, getrow, setitem. rewrite Hrow. simpl.
    destruct (decide (i < length row)%nat); [done | lia].
  - split; [by rewrite length_insert|].
    intros k' row'. rewrite list_lookup_insert.
    case_decide as Hc; [|by apply Hrows].
    intros [= <-]. by rewrite length_insert.
  - intros k' i'. unfold cell. rewrite list_lookup_insert.
    destruct (decide (k = k')) as [<-|Hne].
    + rewrite decide_True by (split; [done | lia]). simpl.
      rewrite list_lookup_insert.
      destruct (decide (i = i')) as [<-|Hne'].
      * rewrite decide_True by (split; [done | lia]).
        by rewrite decide_True by done.
      * rewrite decide_False by lia.
        rewrite decide_False by lia.
        by rewrite Hrow.
    + rewrite decide_False by lia.
      by rewrite decide_False by lia.
Qed.

Lemma setcol_zeros_spec (rows cols : nat) (v : R) :
  (0 < cols)%nat →
  ∃ m, setcol cols (np_zeros2 rows cols) 0 v = Return m ∧ shape rows cols m ∧
       ∀ k i, (k < rows)%nat → (i < cols)%nat →
              cell m k i = Some (if decide (i = 0%nat) then v else 0).
Proof.
  intros Hc. unfold setcol. rewrite decide_True by done.
  eexists. split; [done|]. split; [split|].
  - unfold np_zeros2. by rewrite length_fmap, length_replicate.
  - intros k row. rewrite list_lookup_fmap. unfold np_zeros2.
    destruct (replicate rows (np_zeros cols) !! k) as [row0|] eqn:Hr; [|done].
    apply lookup_replicate_1 in Hr as [-> _]. simpl. intros [= <-].
    unfold np_zeros. by rewrite length_insert, length_replicate.
  - intros k i Hk Hi. unfold cell, np_zeros2.
    rewrite list_lookup_fmap, lookup_replicate_2 by done. simpl.
    rewrite list_lookup_insert. unfold np_zeros. rewrite length_replicate.
    destruct (decide (i = 0%nat)) as [->|Hne].
    + by rewrite decide_True by (split; [done | lia]).
    + rewrite decide_False by (intros [? _]; done).
      by rewrite lookup_replicate_2.
Qed.

(** Two arrays of one shape with the same entries are equal. *)
Lemma array2_eq (rows cols : nat) (m1 m2 : array2) :
  shape rows cols m1 → shape rows cols m2 →
  (∀ k i, (k < rows)%nat → (i < cols)%nat → cell m1 k i = cell m2 k i) →
  m1 = m2.
Proof.
  intros [Hl1 Hr1] [Hl2 Hr2] Hcells. apply list_eq. intros k.
  destruct (decide (k < rows)%nat) as [Hk|Hk].
  - destruct (lookup_lt_is_Some_2 m1 k) as [row1 Hrow1]; [lia|].
    destruct (lookup_lt_is_Some_2 m2 k) as [row2 Hrow2]; [lia|].
    rewrite Hrow1, Hrow2. f_equal. apply list_eq. intros i.
    destruct (decide (i < cols)%nat) as [Hi|Hi].
    + specialize (Hcells k i Hk Hi). unfold cell in Hcells.
      by rewrite Hrow1, Hrow2 in Hcells.
    + rewrite !lookup_ge_None_2; [done | |].
      * rewrite (Hr2 _ _ Hrow2). lia.
      * rewrite (Hr1 _ _ Hrow1). lia.
  - rewrite !lookup_ge_None_2; [done | lia | lia].
Qed.

Lemma setitem2_out_of_range (rows cols : nat) (m : array2) (k i : nat)
    (v : R) :
  shape rows cols m → (k < rows)%nat → (cols ≤ i)%nat →
  setitem2 m k i v = Raise IndexError.
Proof.
  intros [Hlen Hrows] Hk Hi.
  destruct (lookup_lt_is_Some_2 m k) as [row Hrow]; [lia|].
  pose proof (Hrows _ _ Hrow) as Hrl.
  unfold setitem2, getrow, setitem. rewrite Hrow. simpl.
  by rewrite decide_False by lia.
Qed.

Lemma for_each_app {St : Type} (xs ys : list nat)
    (body : nat → St → result St) (s : St) :
  for_each (xs ++ ys) body s = s' ← for_each xs body s; for_each ys body s'.
Proof.
  revert s. induction xs as [|x xs IH]; intros s; [done|].
  cbn [app for_each]. destruct (body x s) as [s1|e]; simpl; [apply IH | done].
Qed.

(** ** The Euler-Maruyama loop: invariant *)

Section Invariant.
Variables (g : globals) (z : nat → R) (c : config) (dt : R) (n r : nat).

Lemma expected_step (sel : R * R → R) (k j k' i : nat) :
  ¬ (k' = k ∧ i = S j) →
  expected g z c dt n r sel k (S j) k' i = expected g z c dt n r sel k j k' i.
Proof.
  intros Hne. unfold expected.
  destruct (decide (filled n k j k' i)) as [Hf|Hf].
  - rewrite decide_True; [done|]. unfold filled in *. lia.
  - rewrite decide_False; [done|]. unfold filled in *. lia.
Qed.

(** What a step reads and computes before it stores anything. *)
Lemma em_step_reads (k j : nat) (w : workspace) :
  Inv g z c dt n r k j w → (k < num_sims c)%nat → (j < NumStep c)%nat →
  ∃ T a, path g z c dt n r k j = (T, a)
         ∧ getitem2 (Tstoc w) k j = Return T
         ∧ getitem2 (Astoc w) k j = Return a
         ∧ path g z c dt n r k (S j)
           = (T + dT_dt g T a * dt + eta_T g * (0 + sqrt dt * z (rng w)),
              a + da_dt g T a * dt
                + eta_a g * (0 + sqrt dt * z (S (rng w)))).
Proof.
  intros [HTs HAs Hrng HT HA] Hk Hj.
  assert (filled n k j k j) as Hf by (unfold filled; lia).
  pose proof (HT k j Hk Hj) as HTj. pose proof (HA k j Hk Hj) as HAj.
  unfold expected in HTj, HAj. rewrite decide_True in HTj, HAj by done.
  destruct (path g z c dt n r k j) as [T a] eqn:Hpath. simpl in HTj, HAj.
  exists T, a. split; [done|].
  split; [by apply getitem2_cell|]. split; [by apply getitem2_cell|].
  assert (draw_pos n r k (S j) 0 = rng w) as E0 by (unfold draw_pos; lia).
  assert (draw_pos n r k (S j) 1 = S (rng w)) as E1 by (unfold draw_pos; lia).
  cbn [path]. by rewrite Hpath, E0, E1.
Qed.

Lemma dT_dt_call_returns (T a : R) :
  S0 g ≠ 0 → dT_dt_call g T a = Return (dT_dt g T a).
Proof.
  intros HS. unfold dT_dt_call, OutgoingRad_np. by rewrite decide_False.
Qed.

Lemma em_step_Inv (k j : nat) (w : workspace) :
  S0 g ≠ 0 →
  Inv g z c dt n r k j w → (k < num_sims c)%nat → (S j < NumStep c)%nat →
  ∃ w', em_step g z dt k (S j) w = Return w' ∧ Inv g z c dt n r k (S j) w'.
Proof.
  intros HS HI Hk Hj.
  destruct (em_step_reads k j w HI Hk ltac:(lia))
    as (T & a & Hpath & HgT & HgA & Hnext).
  destruct HI as [HTs HAs Hrng HT HA].
  set (T' := T + dT_dt g T a * dt + eta_T g * (0 + sqrt dt * z (rng w))).
  set (a' := a + da_dt g T a * dt
             + eta_a g * (0 + sqrt dt * z (S (rng w)))).
  fold T' a' in Hnext.
  destruct (setitem2_spec _ _ _ k (S j) T' HTs Hk Hj)
    as (Tm & HTm & HTs' & HTc).
  destruct (setitem2_spec _ _ _ k (S j) a' HAs Hk Hj)
    as (Am & HAm & HAs' & HAc).
  exists {| Tstoc := Tm; Astoc := Am; rng := S (S (rng w)) |}. split.
  - unfold em_step. replace (S j - 1)%nat with j by lia.
    rewrite HgT, HgA. simpl. rewrite dT_dt_call_returns by done.
    simpl. fold T'. rewrite HTm. simpl. fold a'. by rewrite HAm.
  - split; simpl; [done | done | lia | |].
    + intros k' i Hk' Hi. rewrite HTc.
      case_decide as Hc.
      * destruct Hc as [-> ->]. unfold expected.
        rewrite decide_True by (unfold filled; lia). by rewrite Hnext.
      * rewrite expected_step by done. by apply HT.
    + intros k' i Hk' Hi. rewrite HAc.
      case_decide as Hc.
      * destruct Hc as [-> ->]. unfold expected.
        rewrite decide_True by (unfold filled; lia). by rewrite Hnext.
      * rewrite expected_step by done. by apply HA.
Qed.

(** A step beyond the last column: the new temperature is computed, one
    variate is drawn, and the assignment raises. *)
Lemma em_step_past_the_end (k j : nat) (w : workspace) :
  S0 g ≠ 0 →
  Inv g z c dt n r k j w → (k < num_sims c)%nat → S j = NumStep c →
  em_step g z dt k (S j) w = Raise IndexError.
Proof.
  intros HS HI Hk Hj.
  destruct (em_step_reads k j w HI Hk ltac:(lia))
    as (T & a & _ & HgT & HgA & _).
  destruct HI as [HTs _ _ _ _].
  unfold em_step. replace (S j - 1)%nat with j by lia.
  rewrite HgT, HgA. simpl. rewrite dT_dt_call_returns by done. simpl.
  by rewrite (setitem2_out_of_range _ _ _ _ _ _ HTs Hk) by lia.
Qed.

(** Without a solar constant the first step of a run raises, before any
    variate is drawn. *)
Lemma em_step_no_sun (k j : nat) (w : workspace) :
  S0 g = 0 →
  Inv g z c dt n r k j w → (k < num_sims c)%nat → (j < NumStep c)%nat →
  em_step g z dt k (S j) w = Raise ZeroDivisionError.
Proof.
  intros HS HI Hk Hj.
  destruct (em_step_reads k j w HI Hk Hj) as (T & a & _ & HgT & HgA & _).
  unfold em_step. replace (S j - 1)%nat with j by lia.
  rewrite HgT, HgA. simpl. unfold dT_dt_call, OutgoingRad_np.
  by rewrite decide_True.
Qed.

Lemma inner_loop_Inv (k len j : nat) (w : workspace) :
  S0 g ≠ 0 ∨ len = 0%nat →
  Inv g z c dt n r k j w → (k < num_sims c)%nat → (j + len < NumStep c)%nat →
  ∃ w', for_each (seq (S j) len) (λ i, em_step g z dt k i) w = Return w'
        ∧ Inv g z c dt n r k (j + len) w'.
Proof.
  revert j w. induction len as [|len IH]; intros j w HS HI Hk Hj.
  - exists w. split; [done|]. by replace (j + 0)%nat with j by lia.
  - destruct HS as [HS|?]; [|lia].
    destruct (em_step_Inv k j w HS HI Hk ltac:(lia)) as (w1 & Hstep & HI1).
    destruct (IH (S j) w1 (or_introl HS) HI1 Hk ltac:(lia))
      as (w2 & Hloop & HI2).
    exists w2. split.
    + simpl. rewrite Hstep. simpl. exact Hloop.
    + by replace (j + S len)%nat with (S j + len)%nat by lia.
Qed.

Lemma Inv_next_run (k : nat) (w : workspace) :
  Inv g z c dt n r k (n - 1) w → Inv g z c dt n r (S k) 0 w.
Proof.
  intros [HTs HAs Hrng HT HA]. split; [done | done | nia | |].
  - intros k' i Hk' Hi. rewrite HT by done. f_equal. unfold expected.
    destruct (decide (filled n k (n - 1) k' i)) as [Hf|Hf].
    + rewrite decide_True; [done|]. unfold filled in *. lia.
    + rewrite decide_False; [done|]. unfold filled in *. lia.
  - intros k' i Hk' Hi. rewrite HA by done. f_equal. unfold expected.
    destruct (decide (filled n k (n - 1) k' i)) as [Hf|Hf].
    + rewrite decide_True; [done|]. unfold filled in *. lia.
    + rewrite decide_False; [done|]. unfold filled in *. lia.
Qed.

Lemma outer_loop_Inv (len k : nat) (w : workspace) :
  S0 g ≠ 0 ∨ (n ≤ 1)%nat →
  (0 < NumStep c)%nat → (n ≤ NumStep c)%nat →
  Inv g z c dt n r k 0 w → (k + len ≤ num_sims c)%nat →
  ∃ w', for_each (seq k len)
          (λ k, for_each (range_from 1 n) (λ i, em_step g z dt k i)) w
        = Return w'
        ∧ Inv g z c dt n r (k + len) 0 w'.
Proof.
  intros HS Hn Hle. revert k w. induction len as [|len IH]; intros k w HI Hk.
  - exists w. split; [done|]. by replace (k + 0)%nat with k by lia.
  - destruct (inner_loop_Inv k (n - 1) 0 w) as (w1 & Hrun & HI1);
      [destruct HS; [by left | right; lia] | done | lia | lia |].
    apply Inv_next_run in HI1.
    destruct (IH (S k) w1 HI1 ltac:(lia)) as (w2 & Hloop & HI2).
    exists w2. split.
    + unfold range_from in *. cbn [for_each seq]. rewrite Hrun. exact Hloop.
    + by replace (k + S len)%nat with (S k + len)%nat by lia.
Qed.

(** A grid with more points than the arrays have columns: the first run
    fills its row and raises at the next step. *)
Lemma first_run_past_the_end (w : workspace) :
  S0 g ≠ 0 → (0 < NumStep c)%nat → (NumStep c < n)%nat →
  (0 < num_sims c)%nat → Inv g z c dt n r 0 0 w →
  euler_maruyama g z c dt n w = Raise IndexError.
Proof.
  intros HS Hn Hlt Hsims HI.
  destruct (inner_loop_Inv 0 (NumStep c - 1) 0 w (or_introl HS) HI)
    as (w1 & Hrun & HI1); [lia | lia |].
  unfold euler_maruyama, range, range_from.
  destruct (num_sims c) as [|m] eqn:Hm; [lia|]. cbn [seq for_each].
  replace (n - 1)%nat with ((NumStep c - 1) + S (n - 1 - NumStep c))%nat
    by lia.
  rewrite seq_app, for_each_app, Hrun. simpl.
  replace (S (NumStep c - 1)) with (S (0 + (NumStep c - 1))) by lia.
  by rewrite (em_step_past_the_end 0 _ w1 HS HI1) by lia.
Qed.

(** Without a solar constant, a grid of two points or more raises at the
    first step of the first run. *)
Lemma first_run_no_sun (w : workspace) :
  S0 g = 0 → (0 < NumStep c)%nat → (2 ≤ n)%nat →
  (0 < num_sims c)%nat → Inv g z c dt n r 0 0 w →
  euler_maruyama g z c dt n w = Raise ZeroDivisionError.
Proof.
  intros HS Hn Hlt Hsims HI.
  unfold euler_maruyama, range, range_from.
  destruct (num_sims c) as [|m] eqn:Hm; [lia|]. cbn [seq for_each].
  destruct (n - 1)%nat as [|len] eqn:Hlen; [lia|]. cbn [seq for_each].
  by rewrite (em_step_no_sun 0 0 w HS HI) by lia.
Qed.
End Invariant.

Lemma setup_Inv (rnd : R → R) (g : globals) (z : nat → R) (c : config)
    (dt : R) (n r : nat) :
  (0 < NumStep c)%nat → dt_of rnd c ≠ 0 →
  ∃ w, setup rnd c r = Return (dt_of rnd c, ts_size_of rnd c, w)
       ∧ Inv g z c dt n r 0 0 w.
Proof.
  intros Hn Hdt.
  destruct (setcol_zeros_spec (num_sims c) (NumStep c) (T_init c) Hn)
    as (Tm & HTm & HTs & HTc).
  destruct (setcol_zeros_spec (num_sims c) (NumStep c) (a_init c) Hn)
    as (Am & HAm & HAs & HAc).
  exists {| Tstoc := Tm; Astoc := Am; rng := r |}. split.
  - unfold setup, time_step, arange_size. rewrite decide_False by lia.
    simpl. fold (dt_of rnd c). rewrite decide_False by done. simpl.
    rewrite HTm. simpl. by rewrite HAm.
  - split; simpl; [done | done | lia | |].
    + intros k i Hk Hi. rewrite HTc by done. f_equal. unfold expected.
      destruct (decide (i = 0%nat)) as [->|Hne].
      * by rewrite decide_True by (unfold filled; lia).
      * by rewrite decide_False by (unfold filled; lia).
    + intros k i Hk Hi. rewrite HAc by done. f_equal. unfold expected.
      destruct (decide (i = 0%nat)) as [->|Hne].
      * by rewrite decide_True by (unfold filled; lia).
      * by rewrite decide_False by (unfold filled; lia).
Qed.

(** The simulator returns when the grid has no more points than the arrays
    have columns, and leaves in the arrays the values of the recurrence
    [path] at the points of the grid, zero in the columns beyond it, and
    the generator advanced by two draws for each step of each run. *)
Lemma simulate_path (rnd : R → R) (g : globals) (z : nat → R) (c : config)
    (r : nat) :
  S0 g ≠ 0 ∨ (ts_size_of rnd c ≤ 1)%nat →
  (0 < NumStep c)%nat → dt_of rnd c ≠ 0 →
  (ts_size_of rnd c ≤ NumStep c)%nat →
  ∃ w, simulate rnd g z c r = Return w
       ∧ shape (num_sims c) (NumStep c) (Tstoc w)
       ∧ shape (num_sims c) (NumStep c) (Astoc w)
       ∧ rng w = (r + 2 * (num_sims c * (ts_size_of rnd c - 1)))%nat
       ∧ ∀ k i, (k < num_sims c)%nat → (i < NumStep c)%nat →
           cell (Tstoc w) k i
           = Some (if decide (i < ts_size_of rnd c ∨ i = 0)%nat
                   then fst (path g z c (dt_of rnd c) (ts_size_of rnd c)
                               r k i)
                   else 0)
           ∧ cell (Astoc w) k i
             = Some (if decide (i < ts_size_of rnd c ∨ i = 0)%nat
                     then snd (path g z c (dt_of rnd c) (ts_size_of rnd c)
                                 r k i)
                     else 0).
Proof.
  intros HS Hn Hdt Hle.
  destruct (setup_Inv rnd g z c (dt_of rnd c) (ts_size_of rnd c) r Hn Hdt)
    as (w0 & Hsetup & HI0).
  destruct (outer_loop_Inv g z c _ _ r (num_sims c) 0 w0 HS Hn Hle HI0
              ltac:(lia))
    as (w & Hloop & [HTs HAs Hrng HT HA]).
  exists w. split; [|split; [done|split; [done|split; [simpl in Hrng; lia|]]]].
  - unfold simulate. rewrite Hsetup. simpl. exact Hloop.
  - intros k i Hk Hi. rewrite HT, HA by done. unfold expected.
    destruct (decide (i < ts_size_of rnd c ∨ i = 0)%nat) as [Hf|Hf].
    + by rewrite !decide_True by (unfold filled; simpl; lia).
    + by rewrite !decide_False by (unfold filled; simpl; lia).
Qed.

(** ** The ensemble simulator: theorems *)

Lemma dt_of_small_config : dt_of exact small_config = 1.
Proof. unfold dt_of, exact. simpl. lra. Qed.

Lemma arange_len_exact (a b step : R) (m : Z) :
  (0 < m)%Z → (b - a) / step = IZR m →
  arange_len exact a b step = Z.to_nat m.
Proof.
  intros Hm Hq. unfold arange_len, exact. rewrite Hq.
  rewrite decide_False.
  - by rewrite (Zceil_eq m) by lra.
  - intros [H0 _]. apply eq_IZR in H0. lia.
Qed.

Lemma ts_size_of_small_config : ts_size_of exact small_config = 2%nat.
Proof.
  unfold ts_size_of. rewrite dt_of_small_config.
  rewrite (arange_len_exact _ _ _ 2); [done | lia | simpl; lra].
Qed.






Lemma path_zero_noise (g : globals) (z : nat → R) (c : config) (dt : R)
    (n r k i : nat) :
  eta_T g = 0 → eta_a g = 0 →
  path g z c dt n r k i = forward_euler g dt (T_init c, a_init c) i.
Proof.
  intros HT Ha. induction i as [|j IH]; [done|].
  cbn [path forward_euler]. rewrite <- IH.
  destruct (path g z c dt n r k j) as [T a]. simpl.
  rewrite HT, Ha. f_equal; ring.
Qed.



(** *** Reproducibility *)

Lemma for_each_same_outcome {St : Type} (P : St → St → Prop)
    (xs : list nat) (body body' : nat → St → result St) (s s' : St) :
  (∀ x t t', P t t' → same_outcome P (body x t) (body' x t')) →
  P s s' →
  same_outcome P (for_each xs body s) (for_each xs body' s').
Proof.
  intros Hbody. revert s s'. induction xs as [|x xs IH]; intros s s' Hs.
  - exact Hs.
  - cbn [for_each]. pose proof (Hbody x s s' Hs) as Hx.
    destruct (body x s) as [t|e], (body' x s') as [t'|e']; simpl in *;
      [by apply IH | done | done | done].
Qed.

(** One step reads the generator only at its current position and the
    next. *)
Lemma em_step_same_outcome (g : globals) (z z' : nat → R) (dt : R)
    (r r' k i : nat) (w w' : workspace) :
  (∀ p, z (r + p)%nat = z' (r' + p)%nat) →
  same_arrays r r' w w' →
  same_outcome (same_arrays r r')
    (em_step g z dt k i w) (em_step g z' dt k i w').
Proof.
  intros Hz (HT & HA & d & Hr & Hr'). unfold em_step.
  rewrite <- HT, <- HA, Hr, Hr'.
  destruct (getitem2 (Tstoc w) k (i - 1)) as [T|e]; simpl; [|done].
  destruct (getitem2 (Astoc w) k (i - 1)) as [a|e]; simpl; [|done].
  destruct (dT_dt_call g T a) as [d1|e]; simpl; [|done].
  rewrite <- (Hz d).
  destruct (setitem2 (Tstoc w) k i _) as [Tm|e]; simpl; [|done].
  replace (S (r + d)) with (r + S d)%nat by lia.
  replace (S (r' + d)) with (r' + S d)%nat by lia.
  rewrite <- (Hz (S d)).
  destruct (setitem2 (Astoc w) k i _) as [Am|e]; simpl; [|done].
  split; [done|]. split; [done|]. exists (S (S d)). simpl. lia.
Qed.

Lemma simulate_same_outcome (rnd : R → R) (g : globals) (z z' : nat → R)
    (c : config) (r r' : nat) :
  (∀ p, z (r + p)%nat = z' (r' + p)%nat) →
  same_outcome (same_arrays r r')
    (simulate rnd g z c r) (simulate rnd g z' c r').
Proof.
  intros Hz. unfold simulate, setup.
  destruct (time_step rnd c) as [dt|e]; simpl; [|done].
  destruct (arange_size rnd (time_init c) (time_end c) dt) as [n|e];
    simpl; [|done].
  destruct (setcol (NumStep c) _ 0 (T_init c)) as [T|e]; simpl; [|done].
  destruct (setcol (NumStep c) _ 0 (a_init c)) as [A|e]; simpl; [|done].
  unfold euler_maruyama. apply for_each_same_outcome.
  - intros k t t' Ht. apply for_each_same_outcome; [|done].
    intros i u u' Hu. by apply em_step_same_outcome.
  - split; [done|]. split; [done|]. exists 0%nat. simpl. lia.
Qed.

(** C2: two invocations with the same parameters, initial state, time
    grid and run count, entered with the generator in states that yield
    the same variates (as after seeding it with the same seed), produce
    the same ensemble, or raise the same exception, and leave the
    generator advanced by the same number of draws; on a grid with no
    more points than the arrays have columns both return. *)
Theorem simulate_reproducible (rnd : R → R) (g : globals) (z z' : nat → R)
    (c : config) (r r' : nat) :
  (∀ p, z (r + p)%nat = z' (r' + p)%nat) →
  ensemble (simulate rnd g z c r) = ensemble (simulate rnd g z' c r')
  ∧ (∀ w w', simulate rnd g z c r = Return w →
             simulate rnd g z' c r' = Return w' →
             (rng w - r = rng w' - r')%nat)
  ∧ (S0 g ≠ 0 → (0 < NumStep c)%nat → 0 < dt_of rnd c →
     (ts_size_of rnd c ≤ NumStep c)%nat →
     ∃ w w', simulate rnd g z c r = Return w
             ∧ simulate rnd g z' c r' = Return w'
             ∧ Tstoc w = Tstoc w' ∧ Astoc w = Astoc w').
Proof.
  intros Hz. pose proof (simulate_same_outcome rnd g z z' c r r' Hz) as Hsame.
  split; [|split].
  - destruct (simulate rnd g z c r) as [w|e],
      (simulate rnd g z' c r') as [w'|e']; simpl in *;
      [|done | done | by subst].
    destruct Hsame as (-> & -> & _). done.
  - intros w w' Hw Hw'. rewrite Hw, Hw' in Hsame.
    destruct Hsame as (_ & _ & d & -> & ->). lia.
  - intros HS Hn Hdt Hle.
    destruct (simulate_path rnd g z c r (or_introl HS) Hn ltac:(lra) Hle)
      as (w & Hw & _).
    destruct (simulate_path rnd g z' c r' (or_introl HS) Hn ltac:(lra) Hle)
      as (w' & Hw' & _).
    rewrite Hw, Hw' in Hsame. destruct Hsame as (HT & HA & _).
    by exists w, w'.
Qed.

Lemma simulate_reproducible_witness :
  (∀ p, counting_variates (0 + p) = shifted_variates (2 + p))
  ∧ ensemble (simulate exact notebook_globals counting_variates
                small_config 0)
    = ensemble (simulate exact notebook_globals shifted_variates
                  small_config 2).
Proof.
  assert (∀ p, counting_variates (0 + p) = shifted_variates (2 + p)) as Hz.
  { intros p. unfold counting_variates, shifted_variates. f_equal. lia. }
  split; [exact Hz|].
  destruct (simulate_reproducible exact notebook_globals counting_variates
              shifted_variates small_config 0 2 Hz) as [Heq _].
  exact Heq.
Defined.

(** ** Statistics: theorems *)

Lemma total_from_np_sum (acc : R) (l : list R) :
  total_from acc l = acc + np_sum l.
Proof.
  revert acc. induction l as [|x l IH]; intros acc; [simpl; ring|].
  cbn [total_from np_sum foldr]. fold (np_sum l). rewrite IH. ring.
Qed.

Lemma np_mean_arithmetic (l : list R) : np_mean l = arithmetic_mean l.
Proof.
  unfold np_mean, arithmetic_mean. rewrite total_from_np_sum. f_equal. ring.
Qed.

(** [np.std] with the squares written as products. *)
Lemma np_std_squares (l : list R) :
  np_std l
  = sqrt (np_sum ((λ x, (x - np_mean l) * (x - np_mean l)) <$> l)
          / INR (length l)).
Proof.
  unfold np_std, np_mean at 1. rewrite length_fmap. do 3 f_equal.
  apply list_fmap_ext. intros _ x _. rewrite pow2_abs. ring.
Qed.

Lemma np_std_population (l : list R) : np_std l = population_std l.
Proof.
  rewrite np_std_squares. unfold population_std.
  rewrite total_from_np_sum, <- np_mean_arithmetic. do 2 f_equal.
  by rewrite Rplus_0_l.
Qed.

Lemma per_run_prefix (f : list R → float64) (T : array2) (n len k : nat)
    (out : list float64) :
  length out = n → (k + len ≤ n)%nat → (k + len ≤ length T)%nat →
  ∃ out', for_each (seq k len)
            (λ k out, row ← getrow T k; setitem out k (f row)) out
          = Return out'
          ∧ length out' = n
          ∧ ∀ j, out' !! j = if decide (k ≤ j < k + len)%nat
                             then f <$> T !! j else out !! j.
Proof.
  revert k out. induction len as [|len IH]; intros k out Hout Hk HT.
  - exists out. split; [done|]. split; [done|]. intros j.
    by rewrite decide_False by lia.
  - destruct (lookup_lt_is_Some_2 T k) as [row Hrow]; [lia|].
    destruct (IH (S k) (<[k := f row]> out)) as (out' & Hloop & Hlen & Hget);
      [by rewrite length_insert | lia | lia |].
    exists out'. split; [|split; [done|]].
    + assert (setitem out k (f row) = Return (<[k := f row]> out)) as Hset
        by (unfold setitem; by rewrite decide_True by lia).
      cbn [for_each seq].
      replace (getrow T k) with (Return (A:=list R) row)
        by (unfold getrow; by rewrite Hrow).
      simpl. rewrite Hset. exact Hloop.
    + intros j. rewrite Hget, list_lookup_insert.
      destruct (decide (k = j)) as [<-|Hne].
      * rewrite decide_False by lia. rewrite decide_True by lia.
        rewrite decide_True by lia. by rewrite Hrow.
      * destruct (decide (S k ≤ j < S k + len)%nat).
        -- by rewrite decide_True by lia.
        -- rewrite decide_False by lia. by rewrite decide_False by lia.
Qed.

Lemma per_run_take (f : list R → float64) (n : nat) (T : array2) :
  (n ≤ length T)%nat →
  per_run f n T (np_zeros64 n) = Return (f <$> take n T).
Proof.
  intros Hn.
  destruct (per_run_prefix f T n n 0 (np_zeros64 n))
    as (out & Hloop & Hlen & Hget);
    [unfold np_zeros64; by rewrite length_replicate | lia | lia |].
  unfold per_run, range. rewrite Hloop. f_equal.
  apply list_eq. intros j. rewrite Hget, list_lookup_fmap.
  destruct (decide (0 ≤ j < 0 + n)%nat) as [Hj|Hj].
  - by rewrite lookup_take_lt by lia.
  - rewrite lookup_take_ge by lia. simpl.
    apply lookup_ge_None_2. unfold np_zeros64. rewrite length_replicate. lia.
Qed.

Lemma per_run_short (f : list R → float64) (n : nat) (T : array2) :
  (length T < n)%nat → per_run f n T (np_zeros64 n) = Raise IndexError.
Proof.
  intros Hn. unfold per_run, range.
  assert (seq 0 n = seq 0 (length T) ++ seq (length T) (n - length T)) as ->
    by (rewrite <- seq_app; f_equal; lia).
  rewrite for_each_app.
  destruct (per_run_prefix f T n (length T) 0 (np_zeros64 n))
    as (out & Hloop & _ & _);
    [unfold np_zeros64; by rewrite length_replicate | lia | lia |].
  rewrite Hloop. simpl. destruct (n - length T)%nat as [|m] eqn:Hm; [lia|].
  cbn [seq for_each]. unfold getrow.
  by rewrite lookup_ge_None_2 by lia.
Qed.

Lemma per_run_spec (f : list R → float64) (n : nat) (T : array2) :
  length T = n → per_run f n T (np_zeros64 n) = Return (f <$> T).
Proof.
  intros HT. rewrite per_run_take by lia.
  by rewrite take_ge by lia.
Qed.

(** What the statistics cells return on an ensemble of [n] runs. *)
Lemma summarize_spec (lib : numpy_floats) (n : nat) (T : array2) :
  length T = n →
  ∃ s, summarize lib n T = Return s
       ∧ std_list s = std64 lib <$> T
       ∧ mean_list s = mean64 lib <$> T
       ∧ ∀ k row, T !! k = Some row →
           CoV s !! k
           = Some (fst (np_divide1 (round64 lib) (std64 lib row)
                          (mean64 lib row)))
           ∧ (∀ e, snd (np_divide1 (round64 lib) (std64 lib row)
                          (mean64 lib row)) = Some e →
                   e ∈ warnings s).
Proof.
  intros HT. unfold summarize.
  rewrite !per_run_spec by done. simpl.
  eexists. split; [done|]. simpl. do 2 (split; [done|]).
  intros k row Hrow. split.
  - rewrite list_lookup_fmap, lookup_zip_with, !list_lookup_fmap, Hrow. done.
  - intros e He. apply list_elem_of_omap.
    exists (np_divide1 (round64 lib) (std64 lib row) (mean64 lib row)).
    split; [|done].
    apply list_elem_of_lookup. exists k.
    by rewrite lookup_zip_with, !list_lookup_fmap, Hrow.
Qed.

(** The quotient of two ordinary nonzero numbers is their real quotient,
    rounded. *)
Lemma np_divide1_finite (fl : R → float64) (x y : R) :
  x ≠ 0 → y ≠ 0 → fst (np_divide1 fl (Finite x) (Finite y)) = fl (x / y).
Proof.
  intros Hx Hy. unfold np_divide1, is_zero.
  by rewrite !bool_decide_eq_false_2 by done.
Qed.

Lemma is_zero_cases (m : float64) :
  is_zero m = true → m = Finite 0 ∨ m = NegZero.
Proof.
  destruct m as [v| | | |]; simpl; try done; [|by right].
  intros Hv. apply bool_decide_eq_true in Hv. subst. by left.
Qed.

(** Division by a zero: NaN for a zero dividend, an infinity with the sign
    of the zero for a positive one. *)
Lemma np_divide1_zero_zero (fl : R → float64) (x y : float64) :
  is_zero x = true → is_zero y = true →
  np_divide1 fl x y = (NaN, Some FloatInvalid).
Proof.
  intros Hx Hy.
  destruct (is_zero_cases x Hx) as [-> | ->],
    (is_zero_cases y Hy) as [-> | ->];
    unfold np_divide1, is_zero; rewrite ?bool_decide_eq_true_2; done.
Qed.

Lemma np_divide1_pos_zero (fl : R → float64) (a : R) (y : float64) :
  0 < a → is_zero y = true →
  np_divide1 fl (Finite a) y
  = (infinity (negative y), Some FloatDivideByZero).
Proof.
  intros Ha Hy.
  destruct (is_zero_cases y Hy) as [-> | ->];
    unfold np_divide1, is_zero, negative;
    rewrite ?bool_decide_eq_true_2 by done;
    rewrite ?(bool_decide_eq_false_2 (a = 0)) by lra;
    rewrite ?(bool_decide_eq_false_2 (a < 0)) by lra;
    rewrite ?(bool_decide_eq_false_2 (0 < 0)) by lra; done.
Qed.

Lemma np_divide1_inf_zero (fl : R → float64) (y : float64) :
  is_zero y = true →
  np_divide1 fl PosInf y = (infinity (negative y), None).
Proof.
  intros Hy. by destruct (is_zero_cases y Hy) as [-> | ->].
Qed.

(** [ddof=0]: two samples 1 and 3 have mean 2 and standard deviation 1,
    not sqrt 2. *)
Lemma np_mean_two_samples : np_mean [1; 3] = 2.
Proof. unfold np_mean. simpl. lra. Qed.

Lemma np_std_two_samples : np_std [1; 3] = 1.
Proof.
  rewrite np_std_squares, np_mean_two_samples. simpl.
  match goal with |- sqrt ?x = 1 => replace x with 1 by lra end.
  apply sqrt_1.
Qed.

(** C10: for each run, the standard deviation stored is what [np.std]
    returns on the run's whole temperature series, the mean stored is what
    [np.mean] returns on the same series, and the coefficient of variation
    is the float64 quotient of these two stored numbers (the rounded
    quotient std/mean when both are ordinary nonzero numbers).  With the
    values numpy documents, the standard deviation is the population
    standard deviation (divisor N, the number of time samples) and the mean
    the arithmetic mean of the series. *)
Theorem per_run_statistics (lib : numpy_floats) (n : nat) (T : array2) :
  length T = n →
  (∃ s, summarize lib n T = Return s
        ∧ ∀ k row, T !! k = Some row →
            std_list s !! k = Some (std64 lib row)
            ∧ mean_list s !! k = Some (mean64 lib row)
            ∧ CoV s !! k
              = Some (fst (np_divide1 (round64 lib) (std64 lib row)
                             (mean64 lib row)))
            ∧ (∀ a b, std64 lib row = Finite a → mean64 lib row = Finite b →
                 a ≠ 0 → b ≠ 0 → CoV s !! k = Some (round64 lib (a / b))))
  ∧ (∃ s, summarize documented_numpy n T = Return s
          ∧ ∀ k row, T !! k = Some row →
              std_list s !! k = Some (Finite (population_std row))
              ∧ mean_list s !! k = Some (Finite (arithmetic_mean row))
              ∧ (population_std row ≠ 0 → arithmetic_mean row ≠ 0 →
                 CoV s !! k
                 = Some (Finite (population_std row / arithmetic_mean row)))).
Proof.
  intros HT. split.
  - destruct (summarize_spec lib n T HT) as (s & Hs & Hsd & Hmn & Hq).
    exists s. split; [done|]. intros k row Hrow.
    rewrite Hsd, Hmn, !list_lookup_fmap, Hrow. simpl.
    destruct (Hq k row Hrow) as [HCoV _].
    do 3 (split; [done|]). intros a b Ha Hb Ha0 Hb0.
    by rewrite HCoV, Ha, Hb, np_divide1_finite.
  - destruct (summarize_spec documented_numpy n T HT)
      as (s & Hs & Hsd & Hmn & Hq).
    exists s. split; [done|]. intros k row Hrow.
    rewrite Hsd, Hmn, !list_lookup_fmap, Hrow.
    cbn [documented_numpy std64 mean64 round64 fmap option_fmap option_map].
    rewrite <- np_std_population, <- np_mean_arithmetic.
    do 2 (split; [done|]). intros Hs0 Hm0.
    destruct (Hq k row Hrow) as [-> _].
    cbn [documented_numpy std64 mean64 round64].
    by rewrite np_divide1_finite.
Qed.

Lemma per_run_statistics_witness :
  ∃ s, summarize documented_numpy 1 [[1; 3]] = Return s
       ∧ std_list s !! 0%nat = Some (Finite (population_std [1; 3]))
       ∧ mean_list s !! 0%nat = Some (Finite (arithmetic_mean [1; 3]))
       ∧ CoV s !! 0%nat
         = Some (Finite (population_std [1; 3] / arithmetic_mean [1; 3])).
Proof.
  destruct (per_run_statistics documented_numpy 1 [[1; 3]])
    as [_ (s & Hs & Hrows)]; [reflexivity|].
  exists s. split; [assumption|].
  destruct (Hrows 0%nat [1; 3]) as (H1 & H2 & H3); [reflexivity|].
  split; [assumption|]. split; [assumption|]. apply H3.
  - rewrite <- np_std_population, np_std_two_samples. lra.
  - rewrite <- np_mean_arithmetic, np_mean_two_samples. lra.
Defined.

(** C5, as the code has it: a run whose mean temperature, as [np.mean]
    returns it, is a zero raises nothing and the statistics are returned.
    Its coefficient of variation is NaN when the run's standard deviation
    is a zero or NaN, and +infinity or -infinity, by the sign of the zero
    mean, when the standard deviation is positive or infinite; numpy's
    floating-point condition (invalid value, divide by zero) is flagged as
    a warning. *)
Theorem zero_mean_CoV_not_finite (lib : numpy_floats) (n : nat) (T : array2)
    (k : nat) (row : list R) :
  length T = n → T !! k = Some row → is_zero (mean64 lib row) = true →
  ∃ s, summarize lib n T = Return s
       ∧ mean_list s !! k = Some (mean64 lib row)
       ∧ std_list s !! k = Some (std64 lib row)
       ∧ (is_zero (std64 lib row) = true →
            CoV s !! k = Some NaN ∧ FloatInvalid ∈ warnings s)
       ∧ (∀ a, std64 lib row = Finite a → 0 < a →
            CoV s !! k = Some (infinity (negative (mean64 lib row)))
            ∧ FloatDivideByZero ∈ warnings s)
       ∧ (std64 lib row = PosInf →
            CoV s !! k = Some (infinity (negative (mean64 lib row))))
       ∧ (std64 lib row = NaN → CoV s !! k = Some NaN).
Proof.
  intros HT Hrow Hmean.
  destruct (summarize_spec lib n T HT) as (s & Hs & Hsd & Hmn & Hq).
  exists s. split; [done|].
  rewrite Hsd, Hmn, !list_lookup_fmap, Hrow. simpl.
  do 2 (split; [done|]).
  destruct (Hq k row Hrow) as [HCoV Hw]. rewrite HCoV.
  split; [|split; [|split]].
  - intros Hz. rewrite np_divide1_zero_zero in Hw |- * by done.
    split; [done|]. by apply Hw.
  - intros a Ha Hpos. rewrite Ha in Hw |- *.
    rewrite np_divide1_pos_zero in Hw |- * by done.
    split; [done|]. by apply Hw.
  - intros ->. by rewrite np_divide1_inf_zero.
  - intros ->. done.
Qed.

Lemma np_mean_opposite_pair : np_mean [-1; 1] = 0.
Proof. unfold np_mean. simpl. lra. Qed.

Lemma np_std_opposite_pair : np_std [-1; 1] = 1.
Proof.
  rewrite np_std_squares, np_mean_opposite_pair. simpl.
  match goal with |- sqrt ?x = 1 => replace x with 1 by lra end.
  apply sqrt_1.
Qed.

Lemma zero_mean_CoV_not_finite_witness :
  is_zero (mean64 documented_numpy [-1; 1]) = true
  ∧ ∃ s, summarize documented_numpy 1 [[-1; 1]] = Return s
         ∧ CoV s !! 0%nat = Some PosInf.
Proof.
  assert (is_zero (mean64 documented_numpy [-1; 1]) = true) as Hz.
  { simpl. rewrite np_mean_opposite_pair. by apply bool_decide_eq_true_2. }
  split; [exact Hz|].
  destruct (zero_mean_CoV_not_finite documented_numpy 1 [[-1; 1]] 0 [-1; 1])
    as (s & Hs & _ & _ & _ & Hinf & _);
    [reflexivity | reflexivity | exact Hz |].
  exists s. split; [assumption|].
  destruct (Hinf 1) as [HCoV _];
    [simpl; by rewrite np_std_opposite_pair | lra |].
  rewrite HCoV. simpl. rewrite np_mean_opposite_pair.
  by rewrite bool_decide_eq_false_2 by lra.
Defined.

(** C5, as stated, fails: on the ensemble of one run with temperatures -1
    and 1, whose mean is exactly zero, the statistics are returned, with an
    infinite coefficient of variation, and no condition is raised. *)
Lemma zero_mean_run_returns_infinity :
  np_mean [-1; 1] = 0
  ∧ (∃ s, summarize documented_numpy 1 [[-1; 1]] = Return s
          ∧ mean_list s !! 0%nat = Some (Finite 0)
          ∧ CoV s !! 0%nat = Some PosInf)
  ∧ ∀ e, summarize documented_numpy 1 [[-1; 1]] ≠ Raise e.
Proof.
  split; [apply np_mean_opposite_pair|].
  destruct (summarize_spec documented_numpy 1 [[-1; 1]] eq_refl)
    as (s & Hs & _ & Hmn & Hq).
  split.
  - exists s. split; [done|]. split.
    + rewrite Hmn. simpl. by rewrite np_mean_opposite_pair.
    + destruct (Hq 0%nat [-1; 1] eq_refl) as [-> _].
      cbn [documented_numpy std64 mean64 round64].
      rewrite np_mean_opposite_pair, np_std_opposite_pair.
      rewrite np_divide1_pos_zero;
        [|lra | by apply bool_decide_eq_true_2].
      simpl. by rewrite bool_decide_eq_false_2 by lra.
  - intros e. by rewrite Hs.
Qed.

(** * Further properties of the notebook's code *)

(** ** The flux model *)

Lemma AlbedoEq_range (T : R) : 3 / 10 < AlbedoEq T < 7 / 10.
Proof.
  unfold AlbedoEq, a_ice, a_water, Tc, wT.
  pose proof (tanh_bounds ((T - 265) / (20 / 2))). lra.
Qed.

Lemma tanh_0 : tanh 0 = 0.
Proof. unfold tanh. rewrite sinh_0. unfold Rdiv. apply Rmult_0_l. Qed.

(** At the transition temperature the albedo is midway between water and
    ice. *)
Lemma AlbedoEq_Tc : AlbedoEq Tc = 1 / 2.
Proof.
  unfold AlbedoEq, a_ice, a_water, wT.
  replace ((Tc - Tc) / (20 / 2)) with 0 by (unfold Tc; lra).
  rewrite tanh_0. lra.
Qed.

Lemma continuity_ext (f h : R → R) :
  (∀ x, f x = h x) → continuity f → continuity h.
Proof.
  intros Hfh Hf x.
  unfold continuity_pt, continue_in, limit1_in, limit_in. intros eps Heps.
  destruct (Hf x eps Heps) as (alp & Halp & Hlim).
  exists alp. split; [done|]. intros y Hy. rewrite <- !Hfh. by apply Hlim.
Qed.

Lemma tanh_continuity : continuity tanh.
Proof.
  apply (continuity_ext (sinh / cosh)%F); [done|].
  apply continuity_div.
  - apply derivable_continuous, derivable_sinh.
  - apply derivable_continuous, derivable_cosh.
  - intros x. unfold cosh.
    pose proof (exp_pos x). pose proof (exp_pos (- x)). lra.
Qed.

Lemma AlbedoEq_continuity : continuity AlbedoEq.
Proof.
  apply (continuity_ext
    (fct_cte ((a_ice + a_water) / 2)%R
     - mult_real_fct ((a_ice - a_water) / 2)%R
         (comp tanh (fun T => ((T - Tc) / (wT / 2))%R)))%F); [done|].
  apply continuity_minus; [apply continuity_const; by intros ? ?|].
  apply continuity_scal, continuity_comp; [|apply tanh_continuity].
  apply derivable_continuous. unfold Tc, wT. reg.
Qed.

Lemma flux_diff_continuity (g : globals) : continuity (flux_diff g).
Proof.
  apply (continuity_ext
    (mult_real_fct (/ 4)%R (fct_cte 1 - AlbedoEq)
     - mult_real_fct (emissivity g * sigma g / S0 g)%R
         (fun T => (T ^ 4)%R))%F).
  { intros T. unfold flux_diff, IncomingRad, OutgoingRad, mult_real_fct,
      minus_fct, fct_cte. lra. }
  apply continuity_minus; apply continuity_scal.
  - apply continuity_minus; [apply continuity_const; by intros ? ?|].
    apply AlbedoEq_continuity.
  - apply derivable_continuous, derivable_pow.
Qed.

Lemma OutgoingRad_mono (g : globals) (T1 T2 : R) :
  0 <= emissivity g * sigma g / S0 g → 0 <= T1 <= T2 →
  0 <= OutgoingRad g T1 <= OutgoingRad g T2.
Proof.
  intros Hc [H1 H2]. unfold OutgoingRad.
  assert (0 <= T1 ^ 4) by (apply pow_le; lra).
  assert (T1 ^ 4 <= T2 ^ 4) by (apply pow_incr; lra).
  split; [by apply Rmult_le_pos | by apply Rmult_le_compat_l].
Qed.

(** X1: when T0 and delta are not zero, the state (T, a) is a fixed point
    of the coupled system exactly when T is a zero of [flux_diff] and a is
    the equilibrium albedo at T. *)
Theorem dState_dt_fixed_point (g : globals) (T a t : R) :
  T0 g ≠ 0 → delta g ≠ 0 →
  dState_dt g (T, a) t = (0, 0) ↔ flux_diff g T = 0 ∧ a = AlbedoEq T.
Proof.
  intros HT0 Hd. unfold dState_dt, dT_dt, da_dt, flux_diff. simpl. split.
  - intros [= HT Ha].
    assert (AlbedoEq T - a = 0) as Heq.
    { destruct (Rmult_integral _ _ Ha); [done | lra]. }
    assert (a = AlbedoEq T) as -> by lra. split; [|done].
    assert (T0 g * (IncomingRad (AlbedoEq T) - OutgoingRad g T) = 0) as Hp
      by lra.
    destruct (Rmult_integral _ _ Hp); [done | lra].
  - intros [Hf ->]. f_equal.
    + replace (T0 g * IncomingRad (AlbedoEq T) - T0 g * OutgoingRad g T)
        with (T0 g * (IncomingRad (AlbedoEq T) - OutgoingRad g T)) by ring.
      rewrite Hf. ring.
    + ring.
Qed.

Lemma dState_dt_fixed_point_witness :
  dState_dt notebook_globals (1, 1) 0 = (0, 0)
  ↔ flux_diff notebook_globals 1 = 0 ∧ 1 = AlbedoEq 1.
Proof.
  apply (dState_dt_fixed_point notebook_globals 1 1 0); simpl; lra.
Defined.

(** X2: when emissivity*sigma/S0 is positive, [flux_diff] has a zero at a
    positive temperature, and at every zero the outgoing flux lies between
    (1 - 0.7)/4 and (1 - 0.3)/4. *)
Theorem flux_diff_root_exists (g : globals) :
  0 < emissivity g * sigma g / S0 g →
  (∃ T, 0 < T ∧ flux_diff g T = 0)
  ∧ ∀ T, flux_diff g T = 0 → 3 / 40 < OutgoingRad g T < 7 / 40.
Proof.
  intros Hc. split.
  - set (c := emissivity g * sigma g / S0 g) in *.
    set (Thot := 1 + / c).
    assert (0 < / c) as Hic by (by apply Rinv_0_lt_compat).
    assert (1 <= Thot) as Hhot by (unfold Thot; lra).
    assert (flux_diff g 0 > 0) as H0.
    { unfold flux_diff, IncomingRad, OutgoingRad. fold c.
      pose proof (AlbedoEq_range 0).
      rewrite pow_i, Rmult_0_r by lia. lra. }
    assert (flux_diff g Thot < 0) as H1.
    { unfold flux_diff, IncomingRad, OutgoingRad. fold c.
      pose proof (AlbedoEq_range Thot).
      assert (Thot <= Thot ^ 4) as Hp.
      { pose proof (pow_R1_Rle Thot 3 Hhot).
        replace (Thot ^ 4) with (Thot * Thot ^ 3) by ring. nra. }
      assert (c * Thot = c + 1) as Hct by (unfold Thot; field; lra).
      assert (c * Thot <= c * Thot ^ 4) by (apply Rmult_le_compat_l; lra).
      lra. }
    destruct (IVT (- flux_diff g)%F 0 Thot) as (T & [HT0 HT1] & Hroot).
    + apply continuity_opp, flux_diff_continuity.
    + lra.
    + unfold opp_fct. lra.
    + unfold opp_fct. lra.
    + unfold opp_fct in Hroot. assert (flux_diff g T = 0) as Hr by lra.
      exists T. split; [|done].
      destruct HT0 as [Hlt | <-]; [done | lra].
  - intros T Hr. unfold flux_diff, IncomingRad in Hr.
    pose proof (AlbedoEq_range T). lra.
Qed.

Lemma flux_diff_root_exists_witness :
  (∃ T, 0 < T ∧ flux_diff notebook_globals T = 0)
  ∧ ∀ T, flux_diff notebook_globals T = 0 →
         3 / 40 < OutgoingRad notebook_globals T < 7 / 40.
Proof.
  apply (flux_diff_root_exists notebook_globals). simpl. lra.
Defined.

(** X3: the outgoing flux is the same at -T and T; with
    emissivity*sigma/S0 not negative it is not negative and does not
    decrease with T on T >= 0. *)
Theorem OutgoingRad_even_monotone (g : globals) (T1 T2 : R) :
  0 <= emissivity g * sigma g / S0 g → 0 <= T1 <= T2 →
  OutgoingRad g (- T1) = OutgoingRad g T1
  ∧ 0 <= OutgoingRad g T1 <= OutgoingRad g T2.
Proof.
  intros Hc HT. split; [|by apply OutgoingRad_mono].
  unfold OutgoingRad. f_equal. ring.
Qed.

Lemma OutgoingRad_even_monotone_witness :
  OutgoingRad notebook_globals (- 200) = OutgoingRad notebook_globals 200
  ∧ 0 <= OutgoingRad notebook_globals 200 <= OutgoingRad notebook_globals 300.
Proof.
  apply (OutgoingRad_even_monotone notebook_globals 200 300); simpl; lra.
Defined.

(** X4: the flux absorbed at the equilibrium albedo does not decrease with
    the temperature, and lies strictly between 0.075 and 0.175. *)
Theorem absorbed_flux_feedback (T1 T2 : R) :
  T1 <= T2 →
  IncomingRad (AlbedoEq T1) <= IncomingRad (AlbedoEq T2)
  ∧ 3 / 40 < IncomingRad (AlbedoEq T1) < 7 / 40.
Proof.
  intros HT.
  assert (AlbedoEq T2 <= AlbedoEq T1) as Hm.
  { unfold AlbedoEq, a_ice, a_water, Tc, wT.
    assert (tanh ((T1 - 265) / (20 / 2)) <= tanh ((T2 - 265) / (20 / 2)))
      by (apply tanh_le_mono; lra).
    lra. }
  pose proof (AlbedoEq_range T1). unfold IncomingRad. lra.
Qed.

Lemma absorbed_flux_feedback_witness :
  IncomingRad (AlbedoEq 240) <= IncomingRad (AlbedoEq 288)
  ∧ 3 / 40 < IncomingRad (AlbedoEq 240) < 7 / 40.
Proof.
  apply (absorbed_flux_feedback 240 288). lra.
Defined.

(** X5: with delta positive, the albedo derivative is positive, zero or
    negative exactly when the albedo is below, at or above the equilibrium
    albedo. *)
Theorem da_dt_sign (g : globals) (T a : R) :
  0 < delta g →
  (0 < da_dt g T a ↔ a < AlbedoEq T)
  ∧ (da_dt g T a = 0 ↔ a = AlbedoEq T)
  ∧ (da_dt g T a < 0 ↔ AlbedoEq T < a).
Proof.
  intros Hd. unfold da_dt. simpl.
  set (e := AlbedoEq T - a).
  assert (a < AlbedoEq T ↔ 0 < e) as -> by (unfold e; lra).
  assert (a = AlbedoEq T ↔ e = 0) as -> by (unfold e; lra).
  assert (AlbedoEq T < a ↔ e < 0) as -> by (unfold e; lra).
  clearbody e. repeat split; intros H; nra.
Qed.

Lemma da_dt_sign_witness :
  (0 < da_dt notebook_globals 288 (35 / 100) ↔ 35 / 100 < AlbedoEq 288)
  ∧ (da_dt notebook_globals 288 (35 / 100) = 0 ↔ 35 / 100 = AlbedoEq 288)
  ∧ (da_dt notebook_globals 288 (35 / 100) < 0 ↔ AlbedoEq 288 < 35 / 100).
Proof.
  apply (da_dt_sign notebook_globals 288 (35 / 100)). simpl. lra.
Defined.

(** X6: when 0 <= delta*dt <= 1, one explicit step of the albedo equation
    shrinks the distance to the equilibrium albedo by the factor
    1 - delta*dt and lands between the old albedo and the equilibrium. *)
Theorem albedo_step_relaxes (g : globals) (T a dt : R) :
  0 <= delta g * dt <= 1 →
  (a + da_dt g T a * dt) - AlbedoEq T = (1 - delta g * dt) * (a - AlbedoEq T)
  ∧ Rmin a (AlbedoEq T) <= a + da_dt g T a * dt <= Rmax a (AlbedoEq T).
Proof.
  intros Hd. unfold da_dt. simpl.
  set (q := delta g * dt) in *. set (e := AlbedoEq T).
  assert (a + delta g * (e - a) * dt = a + q * (e - a)) as ->
    by (unfold q; ring).
  split; [ring|].
  unfold Rmin, Rmax. destruct (Rle_dec a e); split; nra.
Qed.

Lemma albedo_step_relaxes_witness :
  (35 / 100 + da_dt notebook_globals 288 (35 / 100) * 1) - AlbedoEq 288
  = (1 - delta notebook_globals * 1) * (35 / 100 - AlbedoEq 288)
  ∧ Rmin (35 / 100) (AlbedoEq 288)
    <= 35 / 100 + da_dt notebook_globals 288 (35 / 100) * 1
    <= Rmax (35 / 100) (AlbedoEq 288).
Proof.
  apply (albedo_step_relaxes notebook_globals 288 (35 / 100) 1). simpl. lra.
Defined.

(** X7: with T0 and emissivity*sigma/S0 not negative, the temperature
    derivative does not increase when the temperature (from 0 upwards) or
    the albedo increases. *)
Theorem dT_dt_monotone (g : globals) (T1 T2 a1 a2 : R) :
  0 <= T0 g → 0 <= emissivity g * sigma g / S0 g →
  0 <= T1 <= T2 → a1 <= a2 →
  dT_dt g T2 a2 <= dT_dt g T1 a1.
Proof.
  intros HT0 Hc HT Ha.
  destruct (OutgoingRad_mono g T1 T2 Hc HT) as (_ & Ho).
  unfold dT_dt, IncomingRad. simpl.
  assert (T0 g * OutgoingRad g T1 <= T0 g * OutgoingRad g T2)
    by (by apply Rmult_le_compat_l).
  assert (T0 g * ((1 - a2) / 4) <= T0 g * ((1 - a1) / 4))
    by (apply Rmult_le_compat_l; lra).
  lra.
Qed.

Lemma dT_dt_monotone_witness :
  dT_dt notebook_globals 300 (4 / 10) <= dT_dt notebook_globals 200 (3 / 10).
Proof.
  apply (dT_dt_monotone notebook_globals 200 300 (3 / 10) (4 / 10));
    simpl; lra.
Defined.

(** ** The noise function and the ensemble simulator *)

(** X8: for a step size that is not negative, a call of [dW] takes one
    variate from the generator, its square is the step size times the
    square of that variate, it is sqrt(delta_t) times what [dW(1)] gives
    on the same variate, and [dW(0)] is 0. *)
Theorem dW_scaling (z : nat → R) (delta_t : R) (r : nat) :
  0 <= delta_t →
  snd (dW z delta_t r) = S r
  ∧ fst (dW z delta_t r) * fst (dW z delta_t r) = delta_t * (z r * z r)
  ∧ fst (dW z delta_t r) = sqrt delta_t * fst (dW z 1 r)
  ∧ fst (dW z 0 r) = 0.
Proof.
  intros Hdt. unfold dW, np_random_normal. simpl.
  rewrite sqrt_1, sqrt_0. split; [done|]. split; [|split; ring].
  replace ((0 + sqrt delta_t * z r) * (0 + sqrt delta_t * z r))
    with (sqrt delta_t * sqrt delta_t * (z r * z r)) by ring.
  by rewrite sqrt_sqrt.
Qed.

Lemma dW_scaling_witness :
  snd (dW counting_variates 4 0) = 1%nat
  ∧ fst (dW counting_variates 4 0) * fst (dW counting_variates 4 0)
    = 4 * (counting_variates 0 * counting_variates 0)
  ∧ fst (dW counting_variates 4 0) = sqrt 4 * fst (dW counting_variates 1 0)
  ∧ fst (dW counting_variates 0 0) = 0.
Proof.
  apply (dW_scaling counting_variates 4 0). lra.
Defined.

Lemma coarse_eq (x : R) (m : Z) :
  IZR m <= x * 64 < IZR m + 1 → coarse x = IZR m / 64.
Proof. intros Hm. unfold coarse. by rewrite (Zfloor_eq m). Qed.

Lemma dt_of_thirds_config : dt_of coarse thirds_config = 21 / 64.
Proof.
  unfold dt_of. simpl.
  rewrite (coarse_eq (1 - 0) 64) by lra.
  rewrite (coarse_eq (1 + 1 + 1) 192) by lra.
  rewrite (coarse_eq _ 21) by lra. done.
Qed.

Lemma ts_size_of_thirds_config : ts_size_of coarse thirds_config = 4%nat.
Proof.
  unfold ts_size_of, arange_len. rewrite dt_of_thirds_config. simpl.
  rewrite (coarse_eq (1 - 0) 64) by lra.
  rewrite (coarse_eq _ 195) by lra.
  rewrite decide_False by (intros [? _]; lra).
  by rewrite (Zceil_eq 4) by lra.
Qed.

(** X9: the grids on which the simulator raises.  With NumStep = 0, or
    with a step that rounds to zero, the first cell raises
    ZeroDivisionError.  When the rounded quotient of the time span by the
    step gives the grid [ts] more points than NumStep, the loop writes
    past the last column and raises IndexError; without a solar constant
    it raises ZeroDivisionError at the first step (at least one run, and a
    grid of two points or more). *)
Theorem simulate_grid_errors (rnd : R → R) (g : globals) (z : nat → R)
    (c : config) (r : nat) :
  (NumStep c = 0%nat → simulate rnd g z c r = Raise ZeroDivisionError)
  ∧ ((0 < NumStep c)%nat → dt_of rnd c = 0 →
     simulate rnd g z c r = Raise ZeroDivisionError)
  ∧ ((0 < NumStep c)%nat → dt_of rnd c ≠ 0 → (0 < num_sims c)%nat →
     S0 g ≠ 0 → (NumStep c < ts_size_of rnd c)%nat →
     simulate rnd g z c r = Raise IndexError)
  ∧ ((0 < NumStep c)%nat → dt_of rnd c ≠ 0 → (0 < num_sims c)%nat →
     S0 g = 0 → (2 ≤ ts_size_of rnd c)%nat →
     simulate rnd g z c r = Raise ZeroDivisionError).
Proof.
  split; [|split; [|split]].
  - intros Hn. unfold simulate, setup, time_step. by rewrite decide_True.
  - intros Hn Hdt. unfold simulate, setup, time_step, arange_size.
    rewrite decide_False by lia. simpl. fold (dt_of rnd c).
    by rewrite decide_True.
  - intros Hn Hdt Hsims HS Hlt.
    destruct (setup_Inv rnd g z c (dt_of rnd c) (ts_size_of rnd c) r Hn Hdt)
      as (w0 & Hsetup & HI0).
    unfold simulate. rewrite Hsetup. simpl.
    by apply (first_run_past_the_end g z c _ _ r).
  - intros Hn Hdt Hsims HS Hlt.
    destruct (setup_Inv rnd g z c (dt_of rnd c) (ts_size_of rnd c) r Hn Hdt)
      as (w0 & Hsetup & HI0).
    unfold simulate. rewrite Hsetup. simpl.
    by apply (first_run_no_sun g z c _ _ r).
Qed.

Lemma simulate_grid_errors_witness :
  simulate exact notebook_globals counting_variates no_step_config 0
  = Raise ZeroDivisionError
  ∧ (NumStep thirds_config < ts_size_of coarse thirds_config)%nat
  ∧ simulate coarse notebook_globals counting_variates thirds_config 0
    = Raise IndexError.
Proof.
  split; [|split].
  - destruct (simulate_grid_errors exact notebook_globals counting_variates
                no_step_config 0) as (Hzero & _).
    apply Hzero. reflexivity.
  - rewrite ts_size_of_thirds_config. simpl. lia.
  - destruct (simulate_grid_errors coarse notebook_globals counting_variates
                thirds_config 0) as (_ & _ & Hindex & _).
    apply Hindex;
      [simpl; lia | rewrite dt_of_thirds_config; lra | simpl; lia
      | simpl; lra | rewrite ts_size_of_thirds_config; simpl; lia].
Defined.

(** X10: when the simulator returns, both arrays have num_sims rows of
    NumStep entries, and every run starts from the same initial temperature
    and albedo. *)
Theorem runs_share_initial_state (rnd : R → R) (g : globals) (z : nat → R)
    (c : config) (r k : nat) :
  S0 g ≠ 0 → (0 < NumStep c)%nat → 0 < dt_of rnd c →
  (ts_size_of rnd c ≤ NumStep c)%nat → (k < num_sims c)%nat →
  ∃ w, simulate rnd g z c r = Return w
       ∧ cell (Tstoc w) k 0 = Some (T_init c)
       ∧ cell (Astoc w) k 0 = Some (a_init c)
       ∧ length (Tstoc w) = num_sims c ∧ length (Astoc w) = num_sims c
       ∧ (∀ row, Tstoc w !! k = Some row → length row = NumStep c)
       ∧ (∀ row, Astoc w !! k = Some row → length row = NumStep c).
Proof.
  intros HS Hn Hdt Hle Hk.
  destruct (simulate_path rnd g z c r (or_introl HS) Hn ltac:(lra) Hle)
    as (w & Hsim & [HTl HTr] & [HAl HAr] & _ & Hcells).
  exists w. split; [done|].
  destruct (Hcells k 0%nat Hk Hn) as [HT HA].
  rewrite decide_True in HT by lia. rewrite decide_True in HA by lia.
  repeat split; try done; [apply HTr | apply HAr].
Qed.

Lemma runs_share_initial_state_witness :
  ∃ w, simulate exact notebook_globals counting_variates small_config 0
       = Return w
       ∧ cell (Tstoc w) 0 0 = Some 280
       ∧ cell (Astoc w) 0 0 = Some (35 / 100).
Proof.
  destruct (runs_share_initial_state exact notebook_globals
              counting_variates small_config 0 0)
    as (w & H1 & H2 & H3 & _);
    [simpl; lra | simpl; lia | rewrite dt_of_small_config; lra
    | rewrite ts_size_of_small_config; simpl; lia | simpl; lia |].
  exists w. repeat split; assumption.
Defined.

(** With a single step the grid has a single point, for a rounding that
    leaves 1 and its own results unchanged. *)
Lemma ts_size_of_one_step (rnd : R → R) (c : config) :
  rnd 1 = 1 → (∀ x, rnd (rnd x) = rnd x) →
  NumStep c = 1%nat → dt_of rnd c ≠ 0 → ts_size_of rnd c = 1%nat.
Proof.
  intros H1 Hidem Hn Hdt.
  assert (dt_of rnd c = rnd (time_end c - time_init c)) as Hd.
  { unfold dt_of. rewrite Hn. simpl. rewrite H1, Rdiv_1_r. apply Hidem. }
  unfold ts_size_of, arange_len. rewrite Hd in Hdt |- *.
  unfold Rdiv. rewrite Rinv_r, H1 by done.
  rewrite decide_False by (intros [? _]; lra).
  by rewrite (Zceil_eq 1) by lra.
Qed.

(** X11: with no run, or with a single time point, the simulator consumes
    no variate: the generator is left where it was, the result is the same
    for every generator, and each run holds the initial state alone (the
    rounding leaves 1 and its own results unchanged). *)
Theorem simulate_no_draws (rnd : R → R) (g : globals) (z z' : nat → R)
    (c : config) (r : nat) :
  rnd 1 = 1 → (∀ x, rnd (rnd x) = rnd x) →
  (0 < NumStep c)%nat → 0 < dt_of rnd c →
  num_sims c = 0%nat ∨ NumStep c = 1%nat →
  ∃ w, simulate rnd g z c r = Return w ∧ simulate rnd g z' c r = Return w
       ∧ rng w = r
       ∧ ∀ k, (k < num_sims c)%nat →
           Tstoc w !! k = Some [T_init c] ∧ Astoc w !! k = Some [a_init c].
Proof.
  intros H1 Hidem Hn Hdt [Hsims|Hone].
  - destruct (setup_Inv rnd g z c (dt_of rnd c) (ts_size_of rnd c) r Hn
                ltac:(lra)) as (w0 & Hsetup & [_ _ Hrng _ _]).
    exists w0. unfold simulate, euler_maruyama. rewrite Hsetup, Hsims.
    simpl. do 2 (split; [done|]). split; [lia|]. intros k Hk. lia.
  - pose proof (ts_size_of_one_step rnd c H1 Hidem Hone ltac:(lra)) as Hts.
    destruct (simulate_path rnd g z c r) as
      (w & Hsim & [HTl HTr] & [HAl HAr] & Hrng & Hcells);
      [right; lia | done | lra | lia |].
    destruct (simulate_path rnd g z' c r) as
      (w' & Hsim' & HTs' & HAs' & Hrng' & Hcells');
      [right; lia | done | lra | lia |].
    assert (∀ k, (k < num_sims c)%nat →
              cell (Tstoc w) k 0 = Some (T_init c)
              ∧ cell (Astoc w) k 0 = Some (a_init c)) as Hw.
    { intros k Hk. destruct (Hcells k 0%nat Hk Hn) as [HT HA].
      rewrite decide_True in HT by lia. by rewrite decide_True in HA by lia. }
    assert (∀ k, (k < num_sims c)%nat →
              cell (Tstoc w') k 0 = Some (T_init c)
              ∧ cell (Astoc w') k 0 = Some (a_init c)) as Hw'.
    { intros k Hk. destruct (Hcells' k 0%nat Hk Hn) as [HT HA].
      rewrite decide_True in HT by lia. by rewrite decide_True in HA by lia. }
    assert (w' = w) as ->.
    { destruct w as [Tm Am rm], w' as [Tm' Am' rm']. simpl in *. f_equal.
      - apply (array2_eq (num_sims c) (NumStep c)); [done | done |].
        intros k i Hk Hi. assert (i = 0%nat) as -> by lia.
        destruct (Hw k Hk) as [-> _]. by destruct (Hw' k Hk) as [-> _].
      - apply (array2_eq (num_sims c) (NumStep c)); [done | done |].
        intros k i Hk Hi. assert (i = 0%nat) as -> by lia.
        destruct (Hw k Hk) as [_ ->]. by destruct (Hw' k Hk) as [_ ->].
      - rewrite Hrng, Hrng'. done. }
    exists w. do 2 (split; [done|]). split; [rewrite Hrng, Hts; lia|].
    intros k Hk.
    destruct (lookup_lt_is_Some_2 (Tstoc w) k) as [rowT HrowT]; [lia|].
    destruct (lookup_lt_is_Some_2 (Astoc w) k) as [rowA HrowA]; [lia|].
    pose proof (HTr k rowT HrowT) as HlT. pose proof (HAr k rowA HrowA) as HlA.
    destruct (Hw k Hk) as [HT HA]. unfold cell in HT, HA.
    rewrite HrowT in HT. rewrite HrowA in HA. simpl in HT, HA.
    rewrite HrowT, HrowA.
    destruct rowT as [|x [|? ?]]; simpl in HlT; try lia.
    destruct rowA as [|y [|? ?]]; simpl in HlA; try lia.
    simpl in HT, HA. by injection HT as ->; injection HA as ->.
Qed.

Lemma simulate_no_draws_witness :
  ∃ w, simulate exact notebook_globals counting_variates
         single_point_config 5
       = Return w
       ∧ simulate exact notebook_globals (λ _, 0) single_point_config 5
         = Return w
       ∧ rng w = 5%nat.
Proof.
  destruct (simulate_no_draws exact notebook_globals counting_variates
              (λ _, 0) single_point_config 5)
    as (w & H1 & H2 & H3 & _);
    [reflexivity | reflexivity | simpl; lia
    | unfold dt_of, exact; simpl; lra | right; reflexivity |].
  exists w. repeat split; assumption.
Defined.

Lemma path_local (g : globals) (z z' : nat → R) (c : config) (dt : R)
    (n r k i : nat) :
  (∀ i' v, (1 ≤ i' ≤ i)%nat → (v < 2)%nat →
     z (draw_pos n r k i' v) = z' (draw_pos n r k i' v)) →
  path g z c dt n r k i = path g z' c dt n r k i.
Proof.
  induction i as [|j IH]; intros Hz; [done|].
  cbn [path]. rewrite <- IH by (intros i' v Hi' Hv; apply Hz; lia).
  destruct (path g z c dt n r k j) as [T a].
  by rewrite !Hz by lia.
Qed.

(** X12: the sample of run k at step i depends on the generator only
    through the draws of that run at steps 1..i: two generators that agree
    on those draws give the same temperature and albedo there, whatever
    they yield for other runs and later steps. *)
Theorem sample_depends_on_own_draws (rnd : R → R) (g : globals)
    (z z' : nat → R) (c : config) (r k i : nat) :
  S0 g ≠ 0 → (0 < NumStep c)%nat → 0 < dt_of rnd c →
  (ts_size_of rnd c ≤ NumStep c)%nat →
  (k < num_sims c)%nat → (i < ts_size_of rnd c)%nat →
  (∀ i' v, (1 ≤ i' ≤ i)%nat → (v < 2)%nat →
     z (draw_pos (ts_size_of rnd c) r k i' v)
     = z' (draw_pos (ts_size_of rnd c) r k i' v)) →
  ∃ w w', simulate rnd g z c r = Return w
          ∧ simulate rnd g z' c r = Return w'
          ∧ cell (Tstoc w) k i = cell (Tstoc w') k i
          ∧ cell (Astoc w) k i = cell (Astoc w') k i.
Proof.
  intros HS Hn Hdt Hle Hk Hi Hz.
  destruct (simulate_path rnd g z c r (or_introl HS) Hn ltac:(lra) Hle)
    as (w & Hsim & _ & _ & _ & Hcells).
  destruct (simulate_path rnd g z' c r (or_introl HS) Hn ltac:(lra) Hle)
    as (w' & Hsim' & _ & _ & _ & Hcells').
  exists w, w'. do 2 (split; [done|]).
  destruct (Hcells k i Hk ltac:(lia)) as [-> ->].
  destruct (Hcells' k i Hk ltac:(lia)) as [-> ->].
  by rewrite (path_local g z z' c _ _ r k i Hz).
Qed.

Lemma sample_depends_on_own_draws_witness :
  ∃ w w',
    simulate exact notebook_globals counting_variates small_config 0
    = Return w
    ∧ simulate exact notebook_globals (λ j, INR (j mod 2)) small_config 0
      = Return w'
    ∧ cell (Tstoc w) 0 1 = cell (Tstoc w') 0 1
    ∧ cell (Astoc w) 0 1 = cell (Astoc w') 0 1.
Proof.
  apply (sample_depends_on_own_draws exact notebook_globals
           counting_variates (λ j, INR (j mod 2)) small_config 0 0 1);
    [simpl; lra | simpl; lia | rewrite dt_of_small_config; lra
    | rewrite ts_size_of_small_config; simpl; lia | simpl; lia
    | rewrite ts_size_of_small_config; lia |].
  rewrite ts_size_of_small_config.
  intros i' v Hi' Hv. assert (i' = 1%nat) as -> by lia.
  destruct v as [|[|v]]; [reflexivity | reflexivity | lia].
Defined.

Lemma path_albedo_range (g : globals) (z : nat → R) (c : config) (dt : R)
    (n r k i : nat) :
  eta_a g = 0 → 0 <= delta g * dt <= 1 →
  a_water <= a_init c <= a_ice →
  a_water <= snd (path g z c dt n r k i) <= a_ice.
Proof.
  intros Heta Hq Ha. induction i as [|j IH]; [done|].
  cbn [path]. destruct (path g z c dt n r k j) as [T a]. simpl in *.
  rewrite Heta. unfold da_dt. simpl.
  pose proof (AlbedoEq_range T) as He. unfold a_water, a_ice in *.
  set (q := delta g * dt) in *. set (e := AlbedoEq T) in *.
  replace (a + delta g * (e - a) * dt + 0 * _)
    with (a + q * (e - a)) by (unfold q; ring).
  split; nra.
Qed.

(** X13: without albedo noise (eta_a = 0), with 0 <= delta*dt <= 1 and an
    initial albedo in [a_water, a_ice], every albedo the simulator stores
    at a point of the grid lies in [a_water, a_ice], whatever the
    temperature noise. *)
Theorem albedo_stays_in_range (rnd : R → R) (g : globals) (z : nat → R)
    (c : config) (r k i : nat) :
  S0 g ≠ 0 → (0 < NumStep c)%nat → 0 < dt_of rnd c →
  (ts_size_of rnd c ≤ NumStep c)%nat →
  eta_a g = 0 → 0 <= delta g * dt_of rnd c <= 1 →
  a_water <= a_init c <= a_ice →
  (k < num_sims c)%nat → (i < ts_size_of rnd c)%nat →
  ∃ w a, simulate rnd g z c r = Return w ∧ cell (Astoc w) k i = Some a
         ∧ a_water <= a <= a_ice.
Proof.
  intros HS Hn Hdt Hle Heta Hq Ha Hk Hi.
  destruct (simulate_path rnd g z c r (or_introl HS) Hn ltac:(lra) Hle)
    as (w & Hsim & _ & _ & _ & Hcells).
  destruct (Hcells k i Hk ltac:(lia)) as [_ HA].
  rewrite decide_True in HA by lia.
  eexists w, _. do 2 (split; [done|]).
  by apply path_albedo_range.
Qed.

Lemma albedo_stays_in_range_witness :
  ∃ w a, simulate exact quiet_globals counting_variates small_config 0
         = Return w
         ∧ cell (Astoc w) 0 1 = Some a ∧ a_water <= a <= a_ice.
Proof.
  apply (albedo_stays_in_range exact quiet_globals counting_variates
           small_config 0 0 1);
    [simpl; lra | simpl; lia | rewrite dt_of_small_config; lra
    | rewrite ts_size_of_small_config; simpl; lia | reflexivity
    | rewrite dt_of_small_config; simpl; lra
    | unfold a_water, a_ice; simpl; lra | simpl; lia
    | rewrite ts_size_of_small_config; lia].
Defined.

Lemma path_equilibrium (g : globals) (z : nat → R) (c : config) (dt : R)
    (n r k i : nat) :
  eta_T g = 0 → eta_a g = 0 →
  flux_diff g (T_init c) = 0 → a_init c = AlbedoEq (T_init c) →
  path g z c dt n r k i = (T_init c, a_init c).
Proof.
  intros HeT Hea Hf Ha. induction i as [|j IH]; [done|].
  cbn [path]. rewrite IH, HeT, Hea. unfold dT_dt, da_dt. simpl.
  rewrite Ha. unfold flux_diff in Hf.
  replace (T0 g * IncomingRad (AlbedoEq (T_init c))
           - T0 g * OutgoingRad g (T_init c))
    with (T0 g * (IncomingRad (AlbedoEq (T_init c))
                  - OutgoingRad g (T_init c)))
    by ring.
  rewrite Hf. f_equal; ring.
Qed.

(** X14: without noise, a run started at a fixed point (a zero of
    [flux_diff] with the equilibrium albedo) stays there: every sample
    stored at a point of the grid is the initial state. *)
Theorem equilibrium_persists (rnd : R → R) (g : globals) (z : nat → R)
    (c : config) (r k i : nat) :
  S0 g ≠ 0 → (0 < NumStep c)%nat → 0 < dt_of rnd c →
  (ts_size_of rnd c ≤ NumStep c)%nat →
  eta_T g = 0 → eta_a g = 0 →
  flux_diff g (T_init c) = 0 → a_init c = AlbedoEq (T_init c) →
  (k < num_sims c)%nat → (i < ts_size_of rnd c)%nat →
  ∃ w, simulate rnd g z c r = Return w
       ∧ cell (Tstoc w) k i = Some (T_init c)
       ∧ cell (Astoc w) k i = Some (a_init c).
Proof.
  intros HS Hn Hdt Hle HeT Hea Hf Ha Hk Hi.
  destruct (simulate_path rnd g z c r (or_introl HS) Hn ltac:(lra) Hle)
    as (w & Hsim & _ & _ & _ & Hcells).
  destruct (Hcells k i Hk ltac:(lia)) as [HT HA].
  rewrite decide_True in HT by lia. rewrite decide_True in HA by lia.
  rewrite (path_equilibrium g z c _ _ r k i HeT Hea Hf Ha) in HT, HA.
  by exists w.
Qed.

Lemma flux_diff_balanced : flux_diff balanced_globals 265 = 0.
Proof.
  unfold flux_diff, IncomingRad, OutgoingRad.
  change 265 with Tc at 1. rewrite AlbedoEq_Tc. simpl. field.
Qed.

Lemma dt_of_balanced_config : dt_of exact balanced_config = 1.
Proof. unfold dt_of, exact. simpl. lra. Qed.

Lemma ts_size_of_balanced_config : ts_size_of exact balanced_config = 2%nat.
Proof.
  unfold ts_size_of. rewrite dt_of_balanced_config.
  rewrite (arange_len_exact _ _ _ 2); [done | lia | simpl; lra].
Qed.

Lemma equilibrium_persists_witness :
  ∃ w, simulate exact balanced_globals counting_variates balanced_config 0
       = Return w
       ∧ cell (Tstoc w) 0 1 = Some 265
       ∧ cell (Astoc w) 0 1 = Some (1 / 2).
Proof.
  apply (equilibrium_persists exact balanced_globals counting_variates
           balanced_config 0 0 1);
    [simpl; lra | simpl; lia | rewrite dt_of_balanced_config; lra
    | rewrite ts_size_of_balanced_config; simpl; lia
    | reflexivity | reflexivity
    | apply flux_diff_balanced
    | symmetry; apply AlbedoEq_Tc | simpl; lia
    | rewrite ts_size_of_balanced_config; lia].
Defined.

Lemma row_of_cells (rows cols : nat) (m : array2) (k : nat) (f : nat → R) :
  shape rows cols m → (k < rows)%nat →
  (∀ i, (i < cols)%nat → cell m k i = Some (f i)) →
  m !! k = Some (f <$> seq 0 cols).
Proof.
  intros [Hl Hr] Hk Hc.
  destruct (lookup_lt_is_Some_2 m k) as [row Hrow]; [lia|].
  rewrite Hrow. f_equal. apply list_eq. intros i.
  rewrite list_lookup_fmap.
  destruct (decide (i < cols)%nat) as [Hi|Hi].
  - specialize (Hc i Hi). unfold cell in Hc. rewrite Hrow in Hc. simpl in Hc.
    by rewrite Hc, lookup_seq_lt.
  - rewrite !lookup_ge_None_2; [done | |].
    + rewrite length_seq. lia.
    + rewrite (Hr _ _ Hrow). lia.
Qed.

(** X15: without noise all runs of the ensemble are the same series. *)
Theorem zero_noise_runs_identical (rnd : R → R) (g : globals) (z : nat → R)
    (c : config) (r k k' : nat) :
  S0 g ≠ 0 → (0 < NumStep c)%nat → 0 < dt_of rnd c →
  (ts_size_of rnd c ≤ NumStep c)%nat →
  eta_T g = 0 → eta_a g = 0 →
  (k < num_sims c)%nat → (k' < num_sims c)%nat →
  ∃ w, simulate rnd g z c r = Return w
       ∧ Tstoc w !! k = Tstoc w !! k' ∧ Astoc w !! k = Astoc w !! k'.
Proof.
  intros HS Hn Hdt Hle HeT Hea Hk Hk'.
  destruct (simulate_path rnd g z c r (or_introl HS) Hn ltac:(lra) Hle)
    as (w & Hsim & HTs & HAs & _ & Hcells).
  exists w. split; [done|].
  set (fe := forward_euler g (dt_of rnd c) (T_init c, a_init c)).
  set (on_grid := λ i : nat, (i < ts_size_of rnd c ∨ i = 0)%nat).
  split.
  - rewrite (row_of_cells _ _ _ k
               (λ i, if decide (on_grid i) then fst (fe i) else 0) HTs Hk),
      (row_of_cells _ _ _ k'
         (λ i, if decide (on_grid i) then fst (fe i) else 0) HTs Hk');
      [done | |].
    + intros i Hi. destruct (Hcells k' i Hk' Hi) as [-> _].
      by rewrite (path_zero_noise g z c _ _ r k' i HeT Hea).
    + intros i Hi. destruct (Hcells k i Hk Hi) as [-> _].
      by rewrite (path_zero_noise g z c _ _ r k i HeT Hea).
  - rewrite (row_of_cells _ _ _ k
               (λ i, if decide (on_grid i) then snd (fe i) else 0) HAs Hk),
      (row_of_cells _ _ _ k'
         (λ i, if decide (on_grid i) then snd (fe i) else 0) HAs Hk');
      [done | |].
    + intros i Hi. destruct (Hcells k' i Hk' Hi) as [_ ->].
      by rewrite (path_zero_noise g z c _ _ r k' i HeT Hea).
    + intros i Hi. destruct (Hcells k i Hk Hi) as [_ ->].
      by rewrite (path_zero_noise g z c _ _ r k i HeT Hea).
Qed.

Lemma dt_of_three_runs_config : dt_of exact three_runs_config = 1.
Proof. unfold dt_of, exact. simpl. lra. Qed.

Lemma ts_size_of_three_runs_config :
  ts_size_of exact three_runs_config = 2%nat.
Proof.
  unfold ts_size_of. rewrite dt_of_three_runs_config.
  rewrite (arange_len_exact _ _ _ 2); [done | lia | simpl; lra].
Qed.

Lemma zero_noise_runs_identical_witness :
  ∃ w, simulate exact quiet_globals counting_variates three_runs_config 0
       = Return w
       ∧ Tstoc w !! 0%nat = Tstoc w !! 2%nat
       ∧ Astoc w !! 0%nat = Astoc w !! 2%nat.
Proof.
  apply (zero_noise_runs_identical exact quiet_globals counting_variates
           three_runs_config 0 0 2);
    [simpl; lra | simpl; lia | rewrite dt_of_three_runs_config; lra
    | rewrite ts_size_of_three_runs_config; simpl; lia
    | reflexivity | reflexivity | simpl; lia | simpl; lia].
Defined.

(** X16: the simulator does not clamp its state: with a nonzero noise
    intensity, at least one run and a grid of at least two points, for
    every bound B some sequence of variates makes the first stored step of
    the temperature, respectively of the albedo, exceed B. *)
Theorem noise_is_not_clamped (rnd : R → R) (g : globals) (c : config)
    (r : nat) (B : R) :
  S0 g ≠ 0 → 0 < dt_of rnd c → (1 < ts_size_of rnd c)%nat →
  (ts_size_of rnd c ≤ NumStep c)%nat → (0 < num_sims c)%nat →
  (eta_T g ≠ 0 →
     ∃ z w T, simulate rnd g z c r = Return w
              ∧ cell (Tstoc w) 0 1 = Some T ∧ B < T)
  ∧ (eta_a g ≠ 0 →
     ∃ z w a, simulate rnd g z c r = Return w
              ∧ cell (Astoc w) 0 1 = Some a ∧ B < a).
Proof.
  intros HS Hdt Hn Hle Hk.
  set (dt := dt_of rnd c) in *.
  assert (0 < sqrt dt) as Hs by (by apply sqrt_lt_R0).
  set (bT := T_init c + dT_dt g (T_init c) (a_init c) * dt).
  set (bA := a_init c + da_dt g (T_init c) (a_init c) * dt).
  split; intros Heta.
  - set (z := λ _ : nat, (B + 1 - bT) / (eta_T g * sqrt dt)).
    destruct (simulate_path rnd g z c r (or_introl HS) ltac:(lia)
                ltac:(unfold dt in Hdt; lra) Hle)
      as (w & Hsim & _ & _ & _ & Hcells).
    destruct (Hcells 0%nat 1%nat Hk ltac:(lia)) as [HT _].
    rewrite decide_True in HT by lia.
    exists z, w, (B + 1). split; [done|]. split; [|lra].
    rewrite HT. f_equal. cbn [path fst]. fold dt bT. unfold z. field. lra.
  - set (z := λ _ : nat, (B + 1 - bA) / (eta_a g * sqrt dt)).
    destruct (simulate_path rnd g z c r (or_introl HS) ltac:(lia)
                ltac:(unfold dt in Hdt; lra) Hle)
      as (w & Hsim & _ & _ & _ & Hcells).
    destruct (Hcells 0%nat 1%nat Hk ltac:(lia)) as [_ HA].
    rewrite decide_True in HA by lia.
    exists z, w, (B + 1). split; [done|]. split; [|lra].
    rewrite HA. f_equal. cbn [path snd]. fold dt bA. unfold z. field. lra.
Qed.

Lemma noise_is_not_clamped_witness :
  ∃ z w a, simulate exact notebook_globals z small_config 0 = Return w
           ∧ cell (Astoc w) 0 1 = Some a ∧ 1 < a.
Proof.
  destruct (noise_is_not_clamped exact notebook_globals small_config 0 1)
    as [_ Ha];
    [simpl; lra | rewrite dt_of_small_config; lra
    | rewrite ts_size_of_small_config; lia
    | rewrite ts_size_of_small_config; simpl; lia | simpl; lia |].
  apply Ha. simpl. lra.
Defined.

Lemma mapM_getitem (m : array2) (j : nat) :
  (∀ k row, m !! k = Some row → (j < length row)%nat) →
  ∃ l, mapM (λ row, getitem row j) m = Return l
       ∧ length l = length m
       ∧ ∀ k, l !! k = cell m k j.
Proof.
  induction m as [|row m IH]; intros Hlen.
  - exists []. split; [done|]. split; [done|]. by intros [|k].
  - destruct IH as (l & Hl & Hll & Hget).
    { intros k row' Hk. by apply (Hlen (S k)). }
    destruct (lookup_lt_is_Some_2 row j) as [x Hx]; [by apply (Hlen 0%nat)|].
    exists (x :: l). split; [|split].
    + assert (getitem row j = Return x) as Hg
        by (unfold getitem; by rewrite Hx).
      cbn. cbn in Hl. rewrite Hg. cbn. rewrite Hl. done.
    + simpl. by rewrite Hll.
    + intros [|k]; [unfold cell; simpl; by rewrite Hx | apply Hget].
Qed.

(** X17: on a simulated ensemble [Tends] has one entry per run, the
    temperature in the last column of that run, which is the last sample
    of the run when the grid has NumStep points; on an array without
    columns it raises IndexError. *)
Theorem Tends_final_samples (rnd : R → R) (g : globals) (z : nat → R)
    (c : config) (r : nat) :
  S0 g ≠ 0 → (0 < NumStep c)%nat → 0 < dt_of rnd c →
  (ts_size_of rnd c ≤ NumStep c)%nat →
  (∃ w l, simulate rnd g z c r = Return w
          ∧ Tends (NumStep c) (Tstoc w) = Return l
          ∧ length l = num_sims c
          ∧ (∀ k, (k < num_sims c)%nat →
               l !! k = cell (Tstoc w) k (NumStep c - 1))
          ∧ (ts_size_of rnd c = NumStep c →
             ∀ k, (k < num_sims c)%nat →
               l !! k
               = Some (fst (path g z c (dt_of rnd c) (NumStep c) r k
                              (NumStep c - 1)))))
  ∧ ∀ T, Tends 0 T = Raise IndexError.
Proof.
  intros HS Hn Hdt Hle. split; [|done].
  destruct (simulate_path rnd g z c r (or_introl HS) Hn ltac:(lra) Hle)
    as (w & Hsim & [HTl HTr] & _ & _ & Hcells).
  destruct (mapM_getitem (Tstoc w) (NumStep c - 1)) as (l & Hl & Hll & Hget).
  { intros k row Hrow. rewrite (HTr _ _ Hrow). lia. }
  exists w, l. split; [done|]. split; [|split; [lia|split]].
  - unfold Tends. by rewrite decide_True.
  - intros k Hk. by rewrite Hget.
  - intros Hts k Hk. rewrite Hget.
    destruct (Hcells k (NumStep c - 1)%nat Hk ltac:(lia)) as [-> _].
    rewrite decide_True by lia. by rewrite Hts.
Qed.

Lemma Tends_final_samples_witness :
  ∃ w l, simulate exact notebook_globals counting_variates small_config 0
         = Return w
         ∧ Tends 2 (Tstoc w) = Return l ∧ length l = 1%nat.
Proof.
  destruct (Tends_final_samples exact notebook_globals counting_variates
              small_config 0)
    as [(w & l & H1 & H2 & H3 & _) _];
    [simpl; lra | simpl; lia | rewrite dt_of_small_config; lra
    | rewrite ts_size_of_small_config; simpl; lia |].
  exists w, l. repeat split; assumption.
Defined.

(** ** The statistics *)

Lemma np_sum_affine (c d : R) (l : list R) :
  np_sum ((λ x, c * x + d) <$> l) = c * np_sum l + d * INR (length l).
Proof.
  induction l as [|x l IH]; [simpl; ring|].
  cbn [fmap list_fmap np_sum foldr length]. fold (np_sum l).
  change (foldr Rplus 0 ((λ x, c * x + d) <$> l))
    with (np_sum ((λ x, c * x + d) <$> l)).
  rewrite IH, S_INR. ring.
Qed.

Lemma np_sum_scal (c : R) (f : R → R) (l : list R) :
  np_sum ((λ x, c * f x) <$> l) = c * np_sum (f <$> l).
Proof.
  induction l as [|x l IH]; [simpl; ring|].
  cbn [fmap list_fmap np_sum foldr].
  change (foldr Rplus 0 ((λ x, c * f x) <$> l))
    with (np_sum ((λ x, c * f x) <$> l)).
  change (foldr Rplus 0 (f <$> l)) with (np_sum (f <$> l)).
  rewrite IH. ring.
Qed.

Lemma np_sum_bounds (lo hi : R) (l : list R) :
  (∀ x, x ∈ l → lo <= x <= hi) →
  lo * INR (length l) <= np_sum l <= hi * INR (length l).
Proof.
  induction l as [|x l IH]; intros Hb; [simpl; lra|].
  cbn [np_sum foldr length]. fold (np_sum l). rewrite S_INR.
  pose proof (Hb x ltac:(left)) as Hx.
  destruct IH as [IH1 IH2]; [intros y Hy; apply Hb; by right|].
  lra.
Qed.

Lemma length_pos_INR (l : list R) : l ≠ [] → 0 < INR (length l).
Proof. intros Hl. apply lt_0_INR. destruct l; [done | simpl; lia]. Qed.

(** X18: the mean of a non-empty series lies between any bounds lo and hi
    of its samples, and its standard deviation between 0 and hi - lo. *)
Theorem statistics_within_range (lo hi : R) (l : list R) :
  l ≠ [] → (∀ x, x ∈ l → lo <= x <= hi) →
  lo <= np_mean l <= hi ∧ 0 <= np_std l <= hi - lo.
Proof.
  intros Hne Hb. pose proof (length_pos_INR l Hne) as Hn.
  assert (lo <= np_mean l <= hi) as Hm.
  { unfold np_mean. destruct (np_sum_bounds lo hi l Hb) as [H1 H2].
    split.
    - apply Rmult_le_reg_r with (INR (length l)); [done|].
      unfold Rdiv. rewrite Rmult_assoc, Rinv_l by lra. lra.
    - apply Rmult_le_reg_r with (INR (length l)); [done|].
      unfold Rdiv. rewrite Rmult_assoc, Rinv_l by lra. lra. }
  split; [done|]. split; [unfold np_std; apply sqrt_pos|].
  rewrite np_std_squares.
  set (m := np_mean l) in *.
  assert (lo <= hi) as Hlh by lra.
  rewrite <- (sqrt_square (hi - lo)) by lra.
  apply sqrt_le_1_alt.
  apply Rmult_le_reg_r with (INR (length l)); [done|].
  unfold Rdiv. rewrite Rmult_assoc, Rinv_l, Rmult_1_r by lra.
  destruct (np_sum_bounds 0 ((hi - lo) * (hi - lo))
              ((λ x, (x - m) * (x - m)) <$> l)) as [_ Hup].
  { intros y Hy. apply list_elem_of_fmap in Hy as (x & -> & Hx).
    pose proof (Hb x Hx). simpl.
    assert (0 <= (hi - lo - (x - m)) * (hi - lo + (x - m)))
      by (apply Rmult_le_pos; lra).
    assert ((hi - lo) * (hi - lo) - (x - m) * (x - m)
            = (hi - lo - (x - m)) * (hi - lo + (x - m))) by ring.
    pose proof (Rle_0_sqr (x - m)) as Hsq. unfold Rsqr in Hsq.
    split; lra. }
  by rewrite length_fmap in Hup.
Qed.

Lemma statistics_within_range_witness :
  1 <= np_mean [1; 3] <= 3 ∧ 0 <= np_std [1; 3] <= 3 - 1.
Proof.
  apply (statistics_within_range 1 3 [1; 3]); [discriminate|].
  intros x Hx. apply elem_of_cons in Hx as [->|Hx]; [lra|].
  apply elem_of_cons in Hx as [->|Hx]; [lra|].
  apply elem_of_nil in Hx. destruct Hx.
Defined.

Lemma np_mean_std_affine (c d : R) (l : list R) :
  l ≠ [] →
  np_mean ((λ x, c * x + d) <$> l) = c * np_mean l + d
  ∧ np_std ((λ x, c * x + d) <$> l) = Rabs c * np_std l.
Proof.
  intros Hne. pose proof (length_pos_INR l Hne) as Hn.
  assert (np_mean ((λ x, c * x + d) <$> l) = c * np_mean l + d) as Hm.
  { unfold np_mean. rewrite length_fmap, np_sum_affine. field. lra. }
  split; [done|].
  rewrite !np_std_squares. rewrite Hm, length_fmap.
  rewrite <- list_fmap_compose.
  set (m := np_mean l).
  assert (np_sum ((λ x, (x - (c * m + d)) * (x - (c * m + d)))
                    ∘ (λ x, c * x + d) <$> l)
          = (c * c) * np_sum ((λ x, (x - m) * (x - m)) <$> l)) as ->.
  { rewrite <- np_sum_scal. f_equal. apply list_fmap_ext.
    intros _ x _. simpl. ring. }
  unfold Rdiv. rewrite Rmult_assoc, sqrt_mult_alt by nra.
  f_equal. change (c * c) with (Rsqr c). apply sqrt_Rsqr_abs.
Qed.

(** Scaling both operands of a float64 division by one positive factor
    changes neither the quotient nor the condition flagged. *)
Lemma np_divide1_scale (fl : R → float64) (c x y : R) :
  0 < c →
  np_divide1 fl (Finite (c * x)) (Finite (c * y))
  = np_divide1 fl (Finite x) (Finite y).
Proof.
  intros Hc. unfold np_divide1, is_zero, negative.
  assert (∀ v, bool_decide (c * v = 0) = bool_decide (v = 0)) as Hz.
  { intros v. apply bool_decide_ext. split; [intros ?; nra | intros ->; ring]. }
  assert (∀ v, bool_decide (c * v < 0) = bool_decide (v < 0)) as Hs.
  { intros v. apply bool_decide_ext. split; intros ?; nra. }
  rewrite !Hz, !Hs.
  destruct (bool_decide (y = 0)) eqn:Hy; [done|].
  apply bool_decide_eq_false in Hy.
  replace (c * x / (c * y)) with (x / y) by (field; lra). done.
Qed.

(** X20: replacing every sample x of a non-empty series by c*x + d with
    c > 0 turns the mean m into c*m + d and the standard deviation s into
    c*s; when d = 0 the quotient std/mean, as float64 division gives it,
    is unchanged. *)
Theorem statistics_affine (fl : R → float64) (c d : R) (l : list R) :
  l ≠ [] → 0 < c →
  np_mean ((λ x, c * x + d) <$> l) = c * np_mean l + d
  ∧ np_std ((λ x, c * x + d) <$> l) = c * np_std l
  ∧ (d = 0 →
     fst (np_divide1 fl (Finite (np_std ((λ x, c * x + d) <$> l)))
            (Finite (np_mean ((λ x, c * x + d) <$> l))))
     = fst (np_divide1 fl (Finite (np_std l)) (Finite (np_mean l)))).
Proof.
  intros Hne Hc.
  destruct (np_mean_std_affine c d l Hne) as [Hm Hs].
  rewrite Rabs_right in Hs by lra.
  split; [done|]. split; [done|]. intros ->. rewrite Hm, Hs, Rplus_0_r.
  by rewrite np_divide1_scale.
Qed.

Lemma statistics_affine_witness :
  np_mean ((λ x, 2 * x + 0) <$> [1; 3]) = 2 * np_mean [1; 3] + 0
  ∧ np_std ((λ x, 2 * x + 0) <$> [1; 3]) = 2 * np_std [1; 3].
Proof.
  destruct (statistics_affine Finite 2 0 [1; 3]) as (H1 & H2 & _);
    [discriminate | lra |].
  split; assumption.
Defined.

(** X21: when num_sims exceeds the number of rows of the array, the
    statistics cell raises IndexError. *)
Theorem summarize_too_few_rows (lib : numpy_floats) (n : nat) (T : array2) :
  (length T < n)%nat → summarize lib n T = Raise IndexError.
Proof.
  intros Hn. unfold summarize. rewrite !per_run_short by done. reflexivity.
Qed.

Lemma summarize_too_few_rows_witness :
  summarize documented_numpy 2 [[1; 3]] = Raise IndexError.
Proof.
  apply (summarize_too_few_rows documented_numpy 2 [[1; 3]]). simpl. lia.
Defined.

(** X22: when the array has at least num_sims rows, the statistics cell
    returns, with one entry per run in each list, what [np.std] and
    [np.mean] return on the row; it reads the first num_sims rows only, so
    that rows beyond them do not change the result. *)
Theorem summarize_first_rows (lib : numpy_floats) (n : nat) (T : array2) :
  (n ≤ length T)%nat →
  ∃ s, summarize lib n T = Return s
       ∧ std_list s = std64 lib <$> take n T
       ∧ mean_list s = mean64 lib <$> take n T
       ∧ length (CoV s) = n
       ∧ summarize lib n (take n T) = Return s.
Proof.
  intros Hn. unfold summarize.
  rewrite !per_run_take by (rewrite ?length_take; lia).
  rewrite take_take, Nat.min_id. simpl.
  eexists. split; [done|]. simpl. do 2 (split; [done|]). split; [|done].
  rewrite length_fmap, length_zip_with, !length_fmap, length_take. lia.
Qed.

Lemma summarize_first_rows_witness :
  ∃ s, summarize documented_numpy 1 [[1; 3]; [2; 2]] = Return s
       ∧ std_list s = (λ l, Finite (np_std l)) <$> [[1; 3]]
       ∧ mean_list s = (λ l, Finite (np_mean l)) <$> [[1; 3]]
       ∧ length (CoV s) = 1%nat
       ∧ summarize documented_numpy 1 [[1; 3]] = Return s.
Proof.
  apply (summarize_first_rows documented_numpy 1 [[1; 3]; [2; 2]]).
  simpl. lia.
Defined.

(** ** The time grid and the flux curves *)

Lemma np_linspace_lookup (start stop : R) (num i : nat) :
  (i < num)%nat →
  np_linspace start stop num !! i
  = Some (start + INR i * ((stop - start) / INR (num - 1))).
Proof.
  intros Hi. unfold np_linspace.
  destruct (decide (1 < num)%nat) as [Hnum|Hnum].
  - rewrite list_lookup_insert, length_fmap, length_seq.
    destruct (decide (num - 1 = i ∧ num - 1 < num)%nat) as [[Heq _]|Hne].
    + subst i. f_equal.
      assert (0 < INR (num - 1)) by (apply lt_0_INR; lia).
      field. lra.
    + rewrite list_lookup_fmap, lookup_seq_lt by done. simpl.
      rewrite decide_True by lia. f_equal. ring.
  - assert (num = 1%nat) as -> by lia. assert (i = 0%nat) as -> by lia.
    simpl. f_equal. ring.
Qed.

(** X24: for at least two points and start < stop, the grid of
    [np.linspace] has num points, begins at start, ends at stop, and its
    consecutive points increase by the constant step
    (stop - start)/(num - 1) within [start, stop]. *)
Theorem np_linspace_grid (start stop : R) (num : nat) :
  (1 < num)%nat → start < stop →
  length (np_linspace start stop num) = num
  ∧ np_linspace start stop num !! 0%nat = Some start
  ∧ np_linspace start stop num !! (num - 1)%nat = Some stop
  ∧ ∀ i x y, np_linspace start stop num !! i = Some x →
             np_linspace start stop num !! S i = Some y →
             start <= x ∧ x < y ∧ y <= stop
             ∧ y - x = (stop - start) / INR (num - 1).
Proof.
  intros Hnum Hlt.
  assert (0 < INR (num - 1)) as Hd by (apply lt_0_INR; lia).
  assert (0 < (stop - start) / INR (num - 1)) as Hstep.
  { apply Rmult_lt_0_compat; [lra | by apply Rinv_0_lt_compat]. }
  assert (length (np_linspace start stop num) = num) as Hlen.
  { unfold np_linspace. rewrite decide_True by lia.
    by rewrite length_insert, length_fmap, length_seq. }
  split; [done|]. split; [|split].
  - rewrite np_linspace_lookup by lia. f_equal. simpl. ring.
  - rewrite np_linspace_lookup by lia. f_equal. field. lra.
  - intros i x y Hx Hy.
    assert (S i < num)%nat as Hi.
    { apply lookup_lt_Some in Hy. lia. }
    rewrite np_linspace_lookup in Hx, Hy by lia.
    assert (x = start + INR i * ((stop - start) / INR (num - 1))) as ->
      by congruence.
    assert (y = start + INR (S i) * ((stop - start) / INR (num - 1))) as ->
      by congruence.
    clear Hx Hy. rewrite S_INR.
    set (h := (stop - start) / INR (num - 1)) in *.
    assert (0 <= INR i) by apply pos_INR.
    assert (INR i + 1 <= INR (num - 1)).
    { rewrite <- S_INR. apply le_INR. lia. }
    assert (INR (num - 1) * h = stop - start) by (unfold h; field; lra).
    repeat split; nra.
Qed.

Lemma np_linspace_grid_witness :
  length (np_linspace 200 350 350) = 350%nat
  ∧ np_linspace 200 350 350 !! 0%nat = Some 200
  ∧ np_linspace 200 350 350 !! (350 - 1)%nat = Some 350.
Proof.
  destruct (np_linspace_grid 200 350 350) as (H1 & H2 & H3 & _);
    [lia | lra |].
  repeat split; assumption.
Defined.

Lemma flux_curves_lookup (g : globals) (temperature_range : list R)
    (i : nat) :
  rad_diff (flux_curves g temperature_range) !! i
  = flux_diff g <$> temperature_range !! i.
Proof.
  unfold flux_curves. simpl.
  rewrite lookup_zip_with, !list_lookup_fmap.
  by destruct (temperature_range !! i).
Qed.

(** X25: the four arrays of the flux cell have the length of the
    temperature array, and the difference array is [flux_diff] applied to
    each temperature. *)
Theorem flux_curves_pointwise (g : globals) (temperature_range : list R) :
  rad_diff (flux_curves g temperature_range)
  = flux_diff g <$> temperature_range
  ∧ length (albedo_func (flux_curves g temperature_range))
    = length temperature_range
  ∧ length (rad_incoming (flux_curves g temperature_range))
    = length temperature_range
  ∧ length (rad_outgoing (flux_curves g temperature_range))
    = length temperature_range
  ∧ length (rad_diff (flux_curves g temperature_range))
    = length temperature_range.
Proof.
  split.
  - apply list_eq. intros i.
    rewrite (flux_curves_lookup g temperature_range i).
    by rewrite list_lookup_fmap.
  - unfold flux_curves. simpl.
    rewrite length_zip_with, !length_fmap. repeat split; lia.
Qed.

(** X26: where two consecutive entries of the difference array have
    opposite signs, over increasing temperatures, [flux_diff] has a zero
    strictly between the two temperatures. *)
Theorem sign_change_brackets_root (g : globals) (temperature_range : list R)
    (i : nat) (Ta Tb da db : R) :
  temperature_range !! i = Some Ta → temperature_range !! S i = Some Tb →
  Ta < Tb →
  rad_diff (flux_curves g temperature_range) !! i = Some da →
  rad_diff (flux_curves g temperature_range) !! S i = Some db →
  da * db < 0 →
  ∃ T, Ta < T < Tb ∧ flux_diff g T = 0.
Proof.
  intros Ha Hb Hab Hda Hdb Hsign.
  rewrite flux_curves_lookup, Ha in Hda.
  assert (da = flux_diff g Ta) as -> by (simpl in Hda; congruence).
  rewrite flux_curves_lookup, Hb in Hdb.
  assert (db = flux_diff g Tb) as -> by (simpl in Hdb; congruence).
  pose proof (flux_diff_continuity g) as Hc.
  destruct (Rlt_dec (flux_diff g Ta) 0) as [Hneg|Hpos].
  - assert (0 < flux_diff g Tb) as Hb0.
    { destruct (Rlt_le_dec 0 (flux_diff g Tb)) as [|Hle]; [done|].
      assert (0 <= - flux_diff g Ta * - flux_diff g Tb)
        by (apply Rmult_le_pos; lra).
      lra. }
    destruct (IVT (flux_diff g) Ta Tb Hc Hab Hneg Hb0) as (T & [H1 H2] & H0).
    exists T. split; [|done].
    split; [destruct H1 as [?| ->] | destruct H2 as [?| ->]]; try done; lra.
  - assert (0 < flux_diff g Ta ∧ flux_diff g Tb < 0) as [Ha0 Hb0].
    { assert (0 <= flux_diff g Ta) as Hge by lra.
      destruct Hge as [Hgt | Heq]; [|rewrite <- Heq in Hsign; lra].
      split; [done|].
      destruct (Rlt_le_dec (flux_diff g Tb) 0) as [|Hle]; [done|].
      assert (0 <= flux_diff g Ta * flux_diff g Tb)
        by (apply Rmult_le_pos; lra).
      lra. }
    destruct (IVT (- flux_diff g)%F Ta Tb) as (T & [H1 H2] & H0).
    + by apply continuity_opp.
    + done.
    + unfold opp_fct. lra.
    + unfold opp_fct. lra.
    + unfold opp_fct in H0. exists T. split; [|lra].
      split; [destruct H1 as [?| ->] | destruct H2 as [?| ->]]; try done; lra.
Qed.

Lemma flux_diff_sign_change :
  flux_diff notebook_globals 200 * flux_diff notebook_globals 350 < 0.
Proof.
  pose proof (AlbedoEq_range 200) as H1.
  pose proof (AlbedoEq_range 350) as H2.
  assert (0 < flux_diff notebook_globals 200) as Ha.
  { unfold flux_diff, IncomingRad, OutgoingRad. simpl. lra. }
  assert (flux_diff notebook_globals 350 < 0) as Hb.
  { unfold flux_diff, IncomingRad, OutgoingRad. simpl. lra. }
  assert (0 < flux_diff notebook_globals 200
              * - flux_diff notebook_globals 350)
    by (apply Rmult_lt_0_compat; lra).
  lra.
Qed.

Lemma sign_change_brackets_root_witness :
  ∃ T, 200 < T < 350 ∧ flux_diff notebook_globals T = 0.
Proof.
  apply (sign_change_brackets_root notebook_globals [200; 350] 0 200 350
           (flux_diff notebook_globals 200) (flux_diff notebook_globals 350));
    [reflexivity | reflexivity | lra | reflexivity | reflexivity
    | apply flux_diff_sign_change].
Defined.
